(** * Additional-properties extension for jsoniter: model and verification

    A shallow embedding of [pkg/ap/jsoniter.go].  The extension keeps a
    registry of struct descriptors, removes the wildcard field (decode name
    ["*"]) from a descriptor, and decorates the struct decoder and encoder
    so that unknown object keys are kept as raw fragments in a
    [map[string]json.RawMessage].

    What the host library provides (the token reader and writer, the typed
    field codecs, reflection, [strings.ToLower]) is taken as data or as a
    parameter: a binding carries its field codecs, a type carries its
    fields and tags, the iterator is the list of members still to be read,
    and the stream is the list of writer calls made so far.  The mutex only
    serialises the calls; the model is sequential. *)

From stdpp Require Import gmap strings list fin_maps.
Local Open Scope string_scope.

(** ** Reflection: [reflect2.Type] and [reflect2.StructField] *)

(** A type is known by what [fmt.Sprintf("%v", typ)] prints and, for a
    struct, by its fields in declaration order.  [ftag] is the result of
    [f.Tag().Lookup("json")]. *)
Inductive GoType :=
| TStruct (name : string) (fields : list StructField)
| TOther (name : string)
with StructField :=
| MkField (fname : string) (ftag : option string) (fanon : bool) (ftype : GoType).

Definition fname (f : StructField) : string :=
  match f with MkField n _ _ _ => n end.
Definition ftag (f : StructField) : option string :=
  match f with MkField _ t _ _ => t end.
Definition fanon (f : StructField) : bool :=
  match f with MkField _ _ a _ => a end.
Definition ftype (f : StructField) : GoType :=
  match f with MkField _ _ _ t => t end.

Definition typeName (typ : GoType) : string :=
  match typ with TStruct n _ => n | TOther n => n end.

(** [typ.Kind() == reflect.Struct] *)
Definition isStruct (typ : GoType) : bool :=
  match typ with TStruct _ _ => true | TOther _ => false end.

(** ** Tags: [jsonTag] and [omitEmpties] *)

(** [strings.Split(s, ",")] *)
Fixpoint splitComma (s : string) : list string :=
  match s with
  | EmptyString => [EmptyString]
  | String c rest =>
      if Ascii.eqb c (Ascii.ascii_of_nat 44) then EmptyString :: splitComma rest
      else match splitComma rest with
           | h :: t => String c h :: t
           | [] => [String c EmptyString]
           end
  end.

Definition jsonTag (f : StructField) : string * gmap string bool :=
  match ftag f with
  | None => (fname f, ∅)
  | Some jt =>
      let parts := splitComma jt in
      let name := hd EmptyString parts in
      let name := if String.eqb name EmptyString then fname f else name in
      (name, foldl (fun qualifiers q => <[q := true]> qualifiers) ∅ (tl parts))
  end.

(** Reading a [map[string]bool] at a key that may be missing. *)
Definition flag (m : gmap string bool) (k : string) : bool :=
  default false (m !! k).

(** [omitEmpties]; [None] is the panic of the type assertion on an
    anonymous field whose type is not a struct. *)
Fixpoint omitEmpties (typ : GoType) : option (gmap string bool) :=
  match typ with
  | TOther _ => None
  | TStruct _ fields =>
      (fix loop (fs : list StructField) (empties : gmap string bool)
         : option (gmap string bool) :=
         match fs with
         | [] => Some empties
         | MkField n t anon ty :: rest =>
             if anon then
               match omitEmpties ty with
               | Some embeddedEmpties => loop rest (embeddedEmpties ∪ empties)
               | None => None
               end
             else
               let '(name, qualifiers) := jsonTag (MkField n t anon ty) in
               loop rest (<[name := flag qualifiers "omitempty"]> empties)
         end) fields ∅
  end.

(** ** The model of instances *)

(** [json.RawMessage]: the bytes of one JSON value. *)
Abbreviation Raw := string (only parsing).

(** The calls made on a [jsoniter.Stream], in order.  [WriteRaw] stands for
    the bytes a typed field encoder writes, [WriteVal] for the raw fragment
    handed to [stream.WriteVal]. *)
Inductive StreamOp :=
| WriteObjectStart
| WriteMore
| WriteObjectField (key : string)
| WriteRaw (bytes : Raw)
| WriteVal (val : Raw)
| WriteObjectEnd.

(** A Go map is a reference: the heap holds the maps, a field of map type
    holds the address of one (or nothing, the nil map). *)
Abbreviation MapHeap := (gmap nat (gmap string string)) (only parsing).

Section Model.

(** The values stored in typed fields. *)
Context {Value : Type}.

(** [jsoniter.Binding].  [Field] names the storage of the field in an
    instance.  [Decoder] is what [binding.Decoder.Decode] stores in the
    field after reading the next value; [EncEncode] and [EncIsEmpty] are
    [binding.Encoder.Encode] and [binding.Encoder.IsEmpty] on the value the
    field holds. *)
Record Binding := {
  Field : nat;
  FromNames : list string;
  ToNames : list string;
  Decoder : Raw -> Value;
  EncEncode : Value -> Raw;
  EncIsEmpty : Value -> bool;
}.

(** [jsoniter.StructDescriptor] *)
Record StructDescriptor := {
  DescType : GoType;
  Fields : list Binding;
}.

(** The extension.  [Desc] holds addresses of descriptors (the descriptor
    store is threaded next to it), [APBinding] holds binding pointers:
    [Some None] is a key that is present with a nil pointer. *)
Record additionalPropertiesExtension := {
  Desc : gmap string nat;
  APBinding : gmap string (option Binding);
}.

Definition newAdditionalPropertiesExtension : additionalPropertiesExtension :=
  {| Desc := ∅; APBinding := ∅ |}.

(** [e.APBinding[name]] read as a pointer: nil when the key is missing. *)
Definition apLookup (e : additionalPropertiesExtension) (name : string)
  : option Binding :=
  default None (APBinding e !! name).

(** An instance: the typed storage by field, and the map-typed storage by
    field (an address into the map heap; missing is the nil map). *)
Record Instance := {
  fieldVal : nat -> Value;
  fieldMap : gmap nat nat;
}.

(** ** [UpdateStructDescriptor] *)

(** [len(binding.FromNames) == 1 && binding.FromNames[0] == "*"] *)
Definition isWildcard (binding : Binding) : bool :=
  match FromNames binding with
  | [n] => String.eqb n "*"
  | _ => false
  end.

(** The [range desc.Fields] loop up to its [break]. *)
Fixpoint scanWildcard (idx : nat) (fields : list Binding) : option (nat * Binding) :=
  match fields with
  | [] => None
  | binding :: rest =>
      if isWildcard binding then Some (idx, binding)
      else scanWildcard (S idx) rest
  end.

(** [append(desc.Fields[:idx], desc.Fields[idx+1:]...)] *)
Definition removeAt (idx : nat) (fields : list Binding) : list Binding :=
  take idx fields ++ drop (S idx) fields.

(** [desc] is the address of the descriptor the host passes in; the
    registry keeps that address, so the removal of the wildcard field is
    seen through [e.Desc] too.  [None] stands for a panic (here: no
    descriptor at the address). *)
Definition UpdateStructDescriptor
    (e : additionalPropertiesExtension) (store : gmap nat StructDescriptor)
    (desc : nat)
  : option (additionalPropertiesExtension * gmap nat StructDescriptor) :=
  match store !! desc with
  | None => None
  | Some d =>
      let typ := typeName (DescType d) in
      match Desc e !! typ with
      | Some _ => Some (e, store)
      | None =>
          let e1 := {| Desc := <[typ := desc]> (Desc e); APBinding := APBinding e |} in
          match scanWildcard 0 (Fields d) with
          | Some (idx, binding) =>
              Some ({| Desc := Desc e1;
                       APBinding := <[typ := Some binding]> (APBinding e1) |},
                    <[desc := {| DescType := DescType d;
                                 Fields := removeAt idx (Fields d) |}]> store)
          | None => Some (e1, store)
          end
      end
  end.

(** ** [embeddedAPBinding] and the promotion step of the decorators *)

(** The loop over the fields of the struct: it stops at the first
    anonymous field whose type name is a key of [e.APBinding] (the [ok] of
    line 294) and returns the entry, which may be nil. *)
Fixpoint scanAnonymous (e : additionalPropertiesExtension) (fs : list StructField)
  : option Binding :=
  match fs with
  | [] => None
  | f :: rest =>
      if fanon f then
        match APBinding e !! typeName (ftype f) with
        | Some a => a
        | None => scanAnonymous e rest
        end
      else scanAnonymous e rest
  end.

Definition embeddedAPBinding (e : additionalPropertiesExtension) (typ : GoType)
  : option Binding :=
  match typ with
  | TStruct _ fs => scanAnonymous e fs
  | TOther _ => None
  end.

(** Lines 93-95 and 168-170:
    [if e.APBinding[name] == nil && e.Desc[name] != nil { ... }]. *)
Definition promoteEmbedded
    (e : additionalPropertiesExtension) (store : gmap nat StructDescriptor)
    (name : string) : option additionalPropertiesExtension :=
  match apLookup e name, Desc e !! name with
  | None, Some desc =>
      match store !! desc with
      | Some d =>
          Some {| Desc := Desc e;
                  APBinding := <[name := embeddedAPBinding e (DescType d)]> (APBinding e) |}
      | None => None
      end
  | _, _ => Some e
  end.

(** What a decorator returns: the encoder or decoder it was given, or a
    replacement. *)
Inductive Decorated (A : Type) :=
| Original
| Replaced (a : A).
Global Arguments Original {A}.
Global Arguments Replaced {A} a.

(** ** The decoder *)

Record apStructDecoder := {
  dec_Fields : gmap string Binding;
  dec_APBinding : option Binding;
}.

Variable ToLower : string -> string.

(** The table loop of [DecorateDecoder]; [None] is the panic of
    [binding.FromNames[0]] on a binding without decode names. *)
Fixpoint decoderFields (bindings : list Binding) (fields : gmap string Binding)
  : option (gmap string Binding) :=
  match bindings with
  | [] => Some fields
  | binding :: rest =>
      match FromNames binding with
      | [] => None
      | fromName :: _ =>
          decoderFields rest
            (<[ToLower fromName := binding]> (<[fromName := binding]> fields))
      end
  end.

(** [Original] is the return of the decoder given; [None] is a panic. *)
Definition DecorateDecoder
    (e : additionalPropertiesExtension) (store : gmap nat StructDescriptor)
    (typ : GoType)
  : option (additionalPropertiesExtension * Decorated apStructDecoder) :=
  let name := typeName typ in
  if negb (isStruct typ) then Some (e, Original)
  else
    match promoteEmbedded e store name with
    | None => None
    | Some e1 =>
        match apLookup e1 name with
        | None => Some (e1, Original)
        | Some ap =>
            match Desc e1 !! name ≫= (store !!.) with
            | None => None
            | Some d =>
                match decoderFields (Fields d) ∅ with
                | None => None
                | Some fields =>
                    Some (e1, Replaced {| dec_Fields := fields; dec_APBinding := Some ap |})
                end
            end
        end
    end.

(** [iter.ReadObject()] on the members still to be read: the key of the
    next member, the empty string when none is left. *)
Definition ReadObject (iter : list (string * Raw)) : string :=
  match iter with
  | [] => EmptyString
  | (key, _) :: _ => key
  end.

(** [binding.Decoder.Decode(ptr, iter)] *)
Definition decodeField (binding : Binding) (val : Raw) (ptr : Instance) : Instance :=
  {| fieldVal := fun f => if decide (f = Field binding) then Decoder binding val
                          else fieldVal ptr f;
     fieldMap := fieldMap ptr |}.

(** [d.APBinding.Field.UnsafeSet(ptr, unsafe.Pointer(&ap))] *)
Definition UnsafeSet (binding : Binding) (ap : nat) (ptr : Instance) : Instance :=
  {| fieldVal := fieldVal ptr; fieldMap := <[Field binding := ap]> (fieldMap ptr) |}.

(** The two lookups of the loop body. *)
Definition route (d : apStructDecoder) (key : string) : option Binding :=
  match dec_Fields d !! key with
  | Some binding => Some binding
  | None => dec_Fields d !! ToLower key
  end.

(** One turn of the [for] loop after the key was read and found not empty.
    [ap] is the address of the local map. *)
Definition decodeMember (d : apStructDecoder) (ap : nat)
    (st : Instance * MapHeap) (m : string * Raw) : Instance * MapHeap :=
  let '(key, val) := m in
  match route d key with
  | Some binding => (decodeField binding val st.1, st.2)
  | None => (st.1, alter (fun a => <[key := val]> a) ap st.2)
  end.

Fixpoint decodeLoop (d : apStructDecoder) (ap : nat)
    (st : Instance * MapHeap) (iter : list (string * Raw)) : Instance * MapHeap :=
  match iter with
  | [] => st
  | m :: rest =>
      if String.eqb (ReadObject iter) EmptyString then st
      else decodeLoop d ap (decodeMember d ap st m) rest
  end.

(** [ap := map[string]json.RawMessage{}] allocates a map at an address
    that is not in use; the field of the instance and the local variable
    then refer to the same map. *)
Definition Decode (d : apStructDecoder) (ptr : Instance) (heap : MapHeap)
    (iter : list (string * Raw)) : Instance * MapHeap :=
  let ap := fresh (dom heap) in
  let heap1 := <[ap := ∅]> heap in
  let ptr1 := match dec_APBinding d with
              | Some binding => UnsafeSet binding ap ptr
              | None => ptr
              end in
  decodeLoop d ap (ptr1, heap1) iter.

(** ** The encoder *)

Record apStructEncoder := {
  enc_Fields : gmap string Binding;
  enc_APBinding : option Binding;
  OmitEmpties : gmap string bool;
}.

(** The table loop of [DecorateEncoder]; [None] is the panic of
    [binding.ToNames[0]] on a binding without encode names. *)
Fixpoint encoderFields (bindings : list Binding) (fields : gmap string Binding)
  : option (gmap string Binding) :=
  match bindings with
  | [] => Some fields
  | binding :: rest =>
      match ToNames binding with
      | [] => None
      | toName :: _ => encoderFields rest (<[toName := binding]> fields)
      end
  end.

(** [Original] is the return of the encoder given; [None] is a panic. *)
Definition DecorateEncoder
    (e : additionalPropertiesExtension) (store : gmap nat StructDescriptor)
    (typ : GoType)
  : option (additionalPropertiesExtension * Decorated apStructEncoder) :=
  let name := typeName typ in
  if negb (isStruct typ) then Some (e, Original)
  else
    match promoteEmbedded e store name with
    | None => None
    | Some e1 =>
        match APBinding e1 !! name with
        | None => Some (e1, Original)
        | Some None => Some (e1, Original)
        | Some (Some apBinding) =>
            match Desc e1 !! name ≫= (store !!.) with
            | None => None
            | Some d =>
                match encoderFields (Fields d) ∅, omitEmpties typ with
                | Some fields, Some empties =>
                    Some (e1, Replaced {| enc_Fields := fields;
                                          enc_APBinding := Some apBinding;
                                          OmitEmpties := empties |})
                | _, _ => None
                end
            end
        end
    end.

(** A Go [range] over a map visits every entry once, in an order the
    language leaves open: [order] is one such visit of [m]. *)
Definition mapRange {V : Type} (m : gmap string V) (order : list (string * V)) : Prop :=
  order ≡ₚ map_to_list m.

(** The writes of one emitted member: [WriteMore] unless it is the first,
    the key, the value. *)
Definition writeMember (first : bool) (key : string) (val : StreamOp) : list StreamOp :=
  ((if first then [] else [WriteMore]) ++ [WriteObjectField key; val])%list.

(** [e.OmitEmpties[key] && binding.Encoder.IsEmpty(ptr)] *)
Definition skipped (e : apStructEncoder) (ptr : Instance) (m : string * Binding) : bool :=
  flag (OmitEmpties e) m.1 && EncIsEmpty m.2 (fieldVal ptr (Field m.2)).

(** The loop over [e.Fields], visiting the entries in [order]; the state
    is the stream so far and the [first] flag. *)
Fixpoint encodeFields (e : apStructEncoder) (ptr : Instance)
    (order : list (string * Binding)) (st : list StreamOp * bool)
  : list StreamOp * bool :=
  match order with
  | [] => st
  | (key, binding) :: rest =>
      if skipped e ptr (key, binding) then encodeFields e ptr rest st
      else
        encodeFields e ptr rest
          ((st.1 ++ writeMember st.2 key
                      (WriteRaw (EncEncode binding (fieldVal ptr (Field binding)))))%list,
           false)
  end.

(** The loop over the additional-properties map. *)
Fixpoint encodeAP (order : list (string * Raw)) (st : list StreamOp * bool)
  : list StreamOp * bool :=
  match order with
  | [] => st
  | (k, v) :: rest => encodeAP rest ((st.1 ++ writeMember st.2 k (WriteVal v))%list, false)
  end.

(** The map read through [binding.Field.UnsafeGet(ptr)] (line 266): the
    map the field refers to; the nil map has no entries. *)
Definition UnsafeGetMap (binding : Binding) (ptr : Instance) (heap : MapHeap)
  : gmap string Raw :=
  match fieldMap ptr !! Field binding with
  | Some a => default ∅ (heap !! a)
  | None => ∅
  end.

(** The map [Encode] ranges over after the typed fields. *)
Definition apOf (e : apStructEncoder) (ptr : Instance) (heap : MapHeap)
  : gmap string Raw :=
  match enc_APBinding e with
  | Some binding => UnsafeGetMap binding ptr heap
  | None => ∅
  end.

(** [Encode] with the two visiting orders made explicit. *)
Definition EncodeIn (e : apStructEncoder) (ptr : Instance)
    (fieldOrder : list (string * Binding)) (apOrder : list (string * Raw))
  : list StreamOp :=
  let st := encodeFields e ptr fieldOrder ([WriteObjectStart], true) in
  match enc_APBinding e with
  | None => (st.1 ++ [WriteObjectEnd])%list
  | Some _ => ((encodeAP apOrder st).1 ++ [WriteObjectEnd])%list
  end.

(** [Encode]: the streams the method can write for an instance. *)
Definition Encode (e : apStructEncoder) (ptr : Instance) (heap : MapHeap)
    (out : list StreamOp) : Prop :=
  ∃ fieldOrder apOrder,
    mapRange (enc_Fields e) fieldOrder ∧
    mapRange (apOf e ptr heap) apOrder ∧
    out = EncodeIn e ptr fieldOrder apOrder.

(** [apStructEncoder.IsEmpty] *)
Definition IsEmpty (e : apStructEncoder) (ptr : Instance) : bool := false.

End Model.

(** ** Concrete data for the examples

    Typed values are strings, a field codec stores and writes the fragment
    as it is, and a value is empty when it is the empty string.
    [asciiToLower] agrees with [strings.ToLower] on ASCII text. *)

Fixpoint asciiToLower (s : string) : string :=
  match s with
  | EmptyString => EmptyString
  | String c rest =>
      let n := Ascii.nat_of_ascii c in
      String (if Nat.leb 65 n && Nat.leb n 90 then Ascii.ascii_of_nat (n + 32) else c)
             (asciiToLower rest)
  end.

Definition exBinding (field : nat) (name : string) : @Binding string :=
  {| Field := field; FromNames := [name]; ToNames := [name];
     Decoder := fun raw => raw;
     EncEncode := fun v => v;
     EncIsEmpty := fun v => String.eqb v EmptyString |}.

(** An instance with every typed field empty and every map field nil. *)
Definition exZero : @Instance string :=
  {| fieldVal := fun _ => EmptyString; fieldMap := ∅ |}.

Definition tInt : GoType := TOther "int".
Definition tString : GoType := TOther "string".
Definition tRawMap : GoType := TOther "map[string]json.RawMessage".

(** A struct with two typed fields and a wildcard field:
    [Name string `json:"name,omitempty"`], [Note string `json:"note"`],
    [Extra map[string]json.RawMessage `json:"*"`]. *)
Definition exT : GoType :=
  TStruct "ap.T"
    [MkField "Name" (Some "name,omitempty") false tString;
     MkField "Note" (Some "note") false tString;
     MkField "Extra" (Some "*") false tRawMap].

Definition bName := exBinding 0 "name".
Definition bNote := exBinding 1 "note".
Definition bExtra := exBinding 2 "*".

(** The descriptor the host builds for [exT], at address 0. *)
Definition exStore : gmap nat (@StructDescriptor string) :=
  {[ 0 := {| DescType := exT; Fields := [bName; bNote; bExtra] |} ]}.

(** The registry and the store after [UpdateStructDescriptor] for [exT]. *)
Definition exRegistry : @additionalPropertiesExtension string :=
  {| Desc := {[ "ap.T" := 0 ]}; APBinding := {[ "ap.T" := Some bExtra ]} |}.

Definition exStore1 : gmap nat (@StructDescriptor string) :=
  {[ 0 := {| DescType := exT; Fields := [bName; bNote] |} ]}.

Definition exDecoder : @apStructDecoder string :=
  {| dec_Fields := list_to_map [("name", bName); ("note", bNote)];
     dec_APBinding := Some bExtra |}.

Definition exEncoder : @apStructEncoder string :=
  {| enc_Fields := list_to_map [("name", bName); ("note", bNote)];
     enc_APBinding := Some bExtra;
     OmitEmpties := list_to_map [("name", true); ("note", false); ("*", false)] |}.

(** An instance of [exT] with [Name = "a"], [Note = "n"] and a nil map. *)
Definition exFilled : @Instance string :=
  {| fieldVal := fun f => match f with 0 => "a" | 1 => "n" | _ => EmptyString end;
     fieldMap := ∅ |}.



(** A struct with two wildcard fields. *)
Definition exW : GoType :=
  TStruct "ap.W"
    [MkField "A" (Some "a") false tString;
     MkField "X1" (Some "*") false tRawMap;
     MkField "B" (Some "b") false tString;
     MkField "X2" (Some "*") false tRawMap].

Definition exStoreW : gmap nat (@StructDescriptor string) :=
  {[ 0 := {| DescType := exW;
             Fields := [exBinding 0 "a"; exBinding 1 "*";
                        exBinding 2 "b"; exBinding 3 "*"] |} ]}.

(** A struct whose fields [Lower] and [Upper] have the decode names
    ["name"] and ["Name"]. *)
Definition exU : GoType :=
  TStruct "ap.U"
    [MkField "Lower" (Some "name") false tString;
     MkField "Upper" (Some "Name") false tString;
     MkField "Extra" (Some "*") false tRawMap].

Definition bLower := exBinding 0 "name".
Definition bUpper := exBinding 1 "Name".

Definition exStoreU : gmap nat (@StructDescriptor string) :=
  {[ 0 := {| DescType := exU; Fields := [bLower; bUpper; exBinding 2 "*"] |} ]}.

Definition exRegistryU : @additionalPropertiesExtension string :=
  {| Desc := {[ "ap.U" := 0 ]}; APBinding := {[ "ap.U" := Some (exBinding 2 "*") ]} |}.

Definition exStoreU1 : gmap nat (@StructDescriptor string) :=
  {[ 0 := {| DescType := exU; Fields := [bLower; bUpper] |} ]}.

Definition exDecoderU : @apStructDecoder string :=
  {| dec_Fields := list_to_map [("name", bUpper); ("Name", bUpper)];
     dec_APBinding := Some (exBinding 2 "*") |}.

(** [A] has no wildcard field, [B] has one, [C] embeds [A] and then [B]. *)
Definition exA : GoType := TStruct "ap.A" [MkField "X" (Some "x") false tInt].
Definition exB : GoType := TStruct "ap.B" [MkField "Extra" (Some "*") false tRawMap].
Definition exC : GoType :=
  TStruct "ap.C" [MkField "A" None true exA; MkField "B" None true exB].

Definition bExtraB := exBinding 0 "*".

Definition exStoreABC : gmap nat (@StructDescriptor string) :=
  {[ 1 := {| DescType := exA; Fields := [exBinding 0 "x"] |};
     2 := {| DescType := exB; Fields := [bExtraB] |};
     3 := {| DescType := exC; Fields := [] |} ]}.

(** The descriptors of [A], [B] and [C] are registered one after the
    other; [encodeAFirst] says whether the encoder of [A] is decorated on
    its own (a value of type [A] was encoded) before [B] and [C] are
    registered.  The result is the decoration of the encoder of [C]. *)
Definition exDecorateC (encodeAFirst : bool)
  : option (@additionalPropertiesExtension string * Decorated (@apStructEncoder string)) :=
  '(e1, s1) ← UpdateStructDescriptor newAdditionalPropertiesExtension exStoreABC 1;
  e2 ← (if encodeAFirst then fst <$> DecorateEncoder e1 s1 exA else Some e1);
  '(e3, s3) ← UpdateStructDescriptor e2 s1 2;
  '(e4, s4) ← UpdateStructDescriptor e3 s3 3;
  DecorateEncoder e4 s4 exC.

(** An enclosing decorated struct whose field [Inner], marked omit-empty,
    is itself a struct with a decorated encoder ([exEncoder]): the
    emptiness of the field is [IsEmpty] of that encoder. *)
Definition bInner : @Binding string :=
  {| Field := 0; FromNames := ["inner"]; ToNames := ["inner"];
     Decoder := fun raw => raw;
     EncEncode := fun v => v;
     EncIsEmpty := fun v => IsEmpty exEncoder exZero |}.

Definition exOuter : @apStructEncoder string :=
  {| enc_Fields := list_to_map [("inner", bInner)];
     enc_APBinding := Some (exBinding 1 "*");
     OmitEmpties := list_to_map [("inner", true); ("*", false)] |}.

(** A binding without names, as the host makes for a field that is not
    exported, and a descriptor of [exT] that has one. *)
Definition bHidden : @Binding string :=
  {| Field := 3; FromNames := []; ToNames := [];
     Decoder := fun raw => raw;
     EncEncode := fun v => v;
     EncIsEmpty := fun v => String.eqb v EmptyString |}.

Definition exStoreHidden : gmap nat (@StructDescriptor string) :=
  {[ 0 := {| DescType := exT; Fields := [bName; bHidden] |} ]}.

(** An instance of [exT] with [Name = "a"], [Note = "n"] and the map
    [{"x": 1}] at address 0 of [exFullHeap]. *)
Definition exFull : @Instance string :=
  {| fieldVal := fun f => match f with 0 => "a" | 1 => "n" | _ => EmptyString end;
     fieldMap := {[ 2 := 0 ]} |}.

Definition exFullHeap : gmap nat (gmap string string) :=
  {[ 0 := {[ "x" := "1" ]} ]}.

(** The registry with [B] registered, and what registering [C] and
    decorating its encoder make of it. *)
Definition exRegistryB : @additionalPropertiesExtension string :=
  {| Desc := {[ "ap.B" := 2 ]}; APBinding := {[ "ap.B" := Some bExtraB ]} |}.

Definition exRegistryBC : @additionalPropertiesExtension string :=
  {| Desc := {[ "ap.B" := 2; "ap.C" := 3 ]};
     APBinding := {[ "ap.B" := Some bExtraB; "ap.C" := Some bExtraB ]} |}.

Definition exEncoderC : @apStructEncoder string :=
  {| enc_Fields := ∅;
     enc_APBinding := Some bExtraB;
     OmitEmpties := list_to_map [("x", false); ("*", false)] |}.

(** ** Vocabulary of the statements *)

(** The members the decode loop gets to: those before the first member
    whose key is the empty string, which [ReadObject] returns at the end
    of the object too. *)
Fixpoint membersRead (iter : list (string * string)) : list (string * string) :=
  match iter with
  | [] => []
  | (key, val) :: rest =>
      if String.eqb key EmptyString then [] else (key, val) :: membersRead rest
  end.

(** [a] is written and [b] is the next write. *)
Definition follows (a b : StreamOp) (out : list StreamOp) : Prop :=
  ∃ l1 l2, out = (l1 ++ a :: b :: l2)%list.

(** The keys written to a stream, in order. *)
Definition fieldKeys (out : list StreamOp) : list string :=
  omap (fun op => match op with WriteObjectField k => Some k | _ => None end) out.

(** Members written one after the other, [WriteMore] before each of them
    except the first when [first] holds. *)
Fixpoint joinFrom (first : bool) (members : list (string * StreamOp)) : list StreamOp :=
  match members with
  | [] => []
  | (key, val) :: rest => (writeMember first key val ++ joinFrom false rest)%list
  end.

Definition nilb {A : Type} (l : list A) : bool :=
  match l with [] => true | _ => false end.

Section Members.

Context {Value : Type}.

(** What [Encode] writes for a typed field and for an entry of the
    additional-properties map. *)
Definition typedMember (ptr : @Instance Value) (m : string * @Binding Value)
  : string * StreamOp :=
  (m.1, WriteRaw (EncEncode m.2 (fieldVal ptr (Field m.2)))).

Definition apMember (m : string * string) : string * StreamOp :=
  (m.1, WriteVal m.2).

(** The entries of a visit that are not skipped, in the order visited. *)
Definition kept (e : @apStructEncoder Value) (ptr : @Instance Value)
    (order : list (string * @Binding Value)) : list (string * @Binding Value) :=
  List.filter (fun m => negb (skipped e ptr m)) order.

(** The encode names of a field list with their bindings, in descriptor
    order; a binding without encode names has no entry. *)
Definition toNameEntries (bindings : list (@Binding Value))
  : list (string * @Binding Value) :=
  omap (fun b => match ToNames b with
                 | [] => None
                 | toName :: _ => Some (toName, b)
                 end) bindings.

End Members.

(** ** Vocabulary of the further statements *)

(** The comma as a character, and whether a string has one. *)
Definition comma : Ascii.ascii := Ascii.ascii_of_nat 44.

Fixpoint hasComma (s : string) : bool :=
  match s with
  | EmptyString => false
  | String c rest => Ascii.eqb c comma || hasComma rest
  end.

(** [strings.Join(parts, ",")] *)
Fixpoint joinComma (parts : list string) : string :=
  match parts with
  | [] => EmptyString
  | [part] => part
  | part :: rest => part ++ String comma (joinComma rest)
  end.

(** The entry [omitEmpties] writes for a field that is not anonymous. *)
Definition tagEntry (f : StructField) : string * bool :=
  ((jsonTag f).1, flag (jsonTag f).2 "omitempty").

(** The entries [omitEmpties] writes for a type, in the order written: the
    entry of every named field, and in the place of an anonymous field the
    entries of its type. *)
Fixpoint emptiesEntries (typ : GoType) : list (string * bool) :=
  match typ with
  | TOther _ => []
  | TStruct _ fields =>
      flat_map (fun f => match f with
                         | MkField n t anon ty =>
                             if anon then emptiesEntries ty
                             else [tagEntry (MkField n t anon ty)]
                         end) fields
  end.

(** Every anonymous field is a struct, and so on through the anonymous
    fields of those structs. *)
Fixpoint embeddable (typ : GoType) : bool :=
  match typ with
  | TOther _ => false
  | TStruct _ fields =>
      forallb (fun f => match f with
                        | MkField _ _ anon ty => if anon then embeddable ty else true
                        end) fields
  end.

(** The loop of [omitEmpties] over the fields, from a table [empties]. *)
Fixpoint omitEmptiesFields (fs : list StructField) (empties : gmap string bool)
  : option (gmap string bool) :=
  match fs with
  | [] => Some empties
  | MkField n t anon ty :: rest =>
      if anon then
        match omitEmpties ty with
        | Some embeddedEmpties => omitEmptiesFields rest (embeddedEmpties ∪ empties)
        | None => None
        end
      else
        let '(name, qualifiers) := jsonTag (MkField n t anon ty) in
        omitEmptiesFields rest (<[name := flag qualifiers "omitempty"]> empties)
  end.

(** Induction on a type through the types of its fields. *)
Fixpoint GoType_fields_ind (P : GoType -> Prop)
    (Hother : forall n, P (TOther n))
    (Hstruct : forall n fs, Forall (fun f => P (ftype f)) fs -> P (TStruct n fs))
    (typ : GoType) : P typ :=
  match typ with
  | TOther n => Hother n
  | TStruct n fs =>
      Hstruct n fs
        ((fix fields (l : list StructField) : Forall (fun f => P (ftype f)) l :=
            match l with
            | [] => @List.Forall_nil _ (fun f => P (ftype f))
            | f :: rest =>
                @List.Forall_cons _ (fun f => P (ftype f)) f rest
                  (match f return P (ftype f) with
                   | MkField _ _ _ ty => GoType_fields_ind P Hother Hstruct ty
                   end)
                  (fields rest)
            end) fs)
  end.

(** The number of [WriteMore] in a stream. *)
Definition separators (out : list StreamOp) : nat :=
  length (List.filter (fun op => match op with WriteMore => true | _ => false end) out).


Section Tables.

Context {Value : Type}.
Variable ToLower : string -> string.


(** The keys the table loop of [DecorateDecoder] writes, with their
    bindings, in the order written. *)
Definition fromNameEntries (bindings : list (@Binding Value))
  : list (string * @Binding Value) :=
  flat_map (fun b => match FromNames b with
                     | [] => []
                     | fromName :: _ => [(fromName, b); (ToLower fromName, b)]
                     end) bindings.

(** [binding] has a first decode name, and it or its lowercase form is
    [key]: the table loop writes [binding] under [key]. *)
Definition claimsKey (key : string) (binding : @Binding Value) : Prop :=
  match FromNames binding with
  | [] => False
  | fromName :: _ => fromName = key \/ ToLower fromName = key
  end.

(** The registries the extension can be in: the new one, and what the
    three methods leave, the host calling them with any descriptor store
    and any type. *)
Inductive reachable : @additionalPropertiesExtension Value -> Prop :=
| reachable_new : reachable newAdditionalPropertiesExtension
| reachable_update e store desc e1 store1 :
    reachable e ->
    UpdateStructDescriptor e store desc = Some (e1, store1) ->
    reachable e1
| reachable_decoder e store typ e1 r :
    reachable e ->
    DecorateDecoder ToLower e store typ = Some (e1, r) ->
    reachable e1
| reachable_encoder e store typ e1 r :
    reachable e ->
    DecorateEncoder e store typ = Some (e1, r) ->
    reachable e1.

Global Instance claimsKey_dec (key : string) (binding : @Binding Value) :
  Decision (claimsKey key binding).
Proof. unfold claimsKey. destruct (FromNames binding); apply _. Defined.

End Tables.

(** * Properties *)

Section Properties.

Context {Value : Type}.
Variable ToLower : string -> string.

Implicit Types (b binding : @Binding Value)
  (e : @additionalPropertiesExtension Value)
  (store : gmap nat (@StructDescriptor Value))
  (ptr : @Instance Value)
  (heap : gmap nat (gmap string string)).

(** ** The descriptor builder *)

Lemma scanWildcard_found (pre post : list (@Binding Value)) b n :
  Forall (fun x => isWildcard x = false) pre ->
  isWildcard b = true ->
  scanWildcard n (pre ++ b :: post) = Some (n + length pre, b).
Proof.
  intros Hpre Hb. revert n.
  induction Hpre as [|x pre Hx _ IH]; intros n; simpl.
  - rewrite Hb. f_equal. f_equal. lia.
  - rewrite Hx, IH. f_equal. f_equal. lia.
Qed.

Lemma scanWildcard_none (fields : list (@Binding Value)) n :
  Forall (fun x => isWildcard x = false) fields ->
  scanWildcard n fields = None.
Proof.
  intros H. revert n. induction H as [|x l Hx _ IH]; intros n; simpl; [done|].
  by rewrite Hx.
Qed.

Lemma removeAt_middle (pre post : list (@Binding Value)) b :
  removeAt (length pre) (pre ++ b :: post) = (pre ++ post)%list.
Proof.
  unfold removeAt.
  rewrite take_app_length.
  replace (S (length pre)) with (length (pre ++ [b])) by (rewrite length_app; simpl; lia).
  replace (pre ++ b :: post)%list with ((pre ++ [b]) ++ post)%list
    by (by rewrite <- app_assoc).
  by rewrite drop_app_length.
Qed.

Lemma UpdateStructDescriptor_registered e store desc d :
  store !! desc = Some d ->
  is_Some (Desc e !! typeName (DescType d)) ->
  UpdateStructDescriptor e store desc = Some (e, store).
Proof.
  intros Hd [p Hp]. unfold UpdateStructDescriptor. by rewrite Hd, Hp.
Qed.

(** After a call that returns, the type of the descriptor is registered,
    and the call has not changed the type of any stored descriptor. *)
Lemma UpdateStructDescriptor_registers e store desc d e1 store1 :
  store !! desc = Some d ->
  UpdateStructDescriptor e store desc = Some (e1, store1) ->
  is_Some (Desc e1 !! typeName (DescType d)).
Proof.
  intros Hd. unfold UpdateStructDescriptor. rewrite Hd.
  destruct (Desc e !! typeName (DescType d)) as [p|] eqn:Hreg.
  - intros [= <- <-]. by rewrite Hreg.
  - destruct (scanWildcard 0 (Fields d)) as [[idx bd]|]; intros [= <- <-]; simpl;
      rewrite lookup_insert_eq; eauto.
Qed.

(** C4: a call for a type that is already in [Desc] returns at once and
    leaves the extension and every stored descriptor as they were; after a
    first call for a descriptor its type is registered, so every later call
    for a descriptor of that type (the same one or a new one) changes
    nothing: the field list cached by the first call stays as the first
    call left it. *)
Theorem UpdateStructDescriptor_idempotent e store desc d :
  store !! desc = Some d ->
  (is_Some (Desc e !! typeName (DescType d)) ->
   UpdateStructDescriptor e store desc = Some (e, store))
  /\ (forall e1 store1,
        UpdateStructDescriptor e store desc = Some (e1, store1) ->
        forall desc' d',
          store1 !! desc' = Some d' ->
          typeName (DescType d') = typeName (DescType d) ->
          UpdateStructDescriptor e1 store1 desc' = Some (e1, store1)).
Proof.
  intros Hd. split.
  - by apply UpdateStructDescriptor_registered.
  - intros e1 store1 Hcall desc' d' Hd' Hname.
    apply (UpdateStructDescriptor_registered _ _ _ d'); [done|].
    rewrite Hname. by eapply UpdateStructDescriptor_registers.
Qed.

(** C5: for a type that is not yet registered the descriptor is stored
    under the type's name and its fields are scanned in order.  When
    [binding] is the first field whose decode names are exactly ["*"], it
    is recorded in [APBinding] and taken out of the field list; the fields
    after it, wildcards among them, stay as they are.  When no field is a
    wildcard, the field list and [APBinding] are unchanged. *)
Theorem UpdateStructDescriptor_first_wildcard e store desc d :
  store !! desc = Some d ->
  Desc e !! typeName (DescType d) = None ->
  (forall pre binding post,
      Fields d = (pre ++ binding :: post)%list ->
      Forall (fun x => isWildcard x = false) pre ->
      isWildcard binding = true ->
      UpdateStructDescriptor e store desc =
        Some ({| Desc := <[typeName (DescType d) := desc]> (Desc e);
                 APBinding := <[typeName (DescType d) := Some binding]> (APBinding e) |},
              <[desc := {| DescType := DescType d; Fields := (pre ++ post)%list |}]> store))
  /\ (Forall (fun x => isWildcard x = false) (Fields d) ->
      UpdateStructDescriptor e store desc =
        Some ({| Desc := <[typeName (DescType d) := desc]> (Desc e);
                 APBinding := APBinding e |}, store)).
Proof.
  intros Hd Hnew. unfold UpdateStructDescriptor. rewrite Hd, Hnew. split.
  - intros pre binding post Hfields Hpre Hw.
    rewrite Hfields, (scanWildcard_found pre post binding 0 Hpre Hw). simpl.
    by rewrite removeAt_middle.
  - intros Hnone. by rewrite scanWildcard_none.
Qed.

(** ** The decoder *)

Lemma decodeLoop_membersRead (d : @apStructDecoder Value) ap st iter :
  decodeLoop ToLower d ap st iter
  = foldl (decodeMember ToLower d ap) st (membersRead iter).
Proof.
  revert st. induction iter as [|[key val] rest IH]; intros st; [done|].
  simpl. destruct (String.eqb key EmptyString); [done|]. apply IH.
Qed.







Lemma Decode_unfold (d : @apStructDecoder Value) ptr heap iter :
  Decode ToLower d ptr heap iter
  = foldl (decodeMember ToLower d (fresh (dom heap)))
      (match dec_APBinding d with
       | Some binding => UnsafeSet binding (fresh (dom heap)) ptr
       | None => ptr
       end, <[fresh (dom heap) := ∅]> heap)
      (membersRead iter).
Proof. unfold Decode. apply decodeLoop_membersRead. Qed.






(** ** The encoder *)

Lemma joinFrom_app first (xs ys : list (string * StreamOp)) :
  joinFrom first (xs ++ ys)
  = (joinFrom first xs ++ joinFrom (first && nilb xs) ys)%list.
Proof.
  revert first. induction xs as [|[k v] xs IH]; intros first; simpl.
  - by rewrite andb_true_r.
  - rewrite IH, andb_false_r. simpl. by rewrite <- !app_assoc.
Qed.

Lemma fieldKeys_app (l1 l2 : list StreamOp) :
  fieldKeys (l1 ++ l2) = (fieldKeys l1 ++ fieldKeys l2)%list.
Proof. unfold fieldKeys. apply omap_app. Qed.

Lemma fieldKeys_joinFrom_typed ptr first (ms : list (string * @Binding Value)) :
  fieldKeys (joinFrom first (map (typedMember ptr) ms)) = ms.*1.
Proof.
  revert first. induction ms as [|[k v] ms IH]; intros first; [done|].
  simpl. unfold writeMember. rewrite !fieldKeys_app, IH.
  by destruct first.
Qed.

Lemma fieldKeys_joinFrom_ap first (ms : list (string * string)) :
  fieldKeys (joinFrom first (map apMember ms)) = ms.*1.
Proof.
  revert first. induction ms as [|[k v] ms IH]; intros first; [done|].
  simpl. unfold writeMember. rewrite !fieldKeys_app, IH.
  by destruct first.
Qed.

Lemma elem_of_fieldKeys (out : list StreamOp) k :
  WriteObjectField k ∈ out <-> k ∈ fieldKeys out.
Proof.
  unfold fieldKeys. rewrite list_elem_of_omap. split.
  - intros H. by exists (WriteObjectField k).
  - intros (op & Hin & Hop). destruct op; simplify_eq. done.
Qed.

Lemma follows_app_l (x y : StreamOp) (l out : list StreamOp) :
  follows x y out -> follows x y (l ++ out).
Proof.
  intros (l1 & l2 & ->). exists (l ++ l1)%list, l2. by rewrite <- app_assoc.
Qed.

Lemma follows_app_r (x y : StreamOp) (l out : list StreamOp) :
  follows x y out -> follows x y (out ++ l).
Proof.
  intros (l1 & l2 & ->). exists l1, (l2 ++ l)%list.
  by rewrite <- app_assoc.
Qed.

Lemma follows_joinFrom first (ms : list (string * StreamOp)) k v :
  (k, v) ∈ ms -> follows (WriteObjectField k) v (joinFrom first ms).
Proof.
  revert first. induction ms as [|[k' v'] ms IH]; intros first Hin.
  - by apply not_elem_of_nil in Hin.
  - apply elem_of_cons in Hin as [[= <- <-]|Hin]; simpl.
    + apply follows_app_r. unfold writeMember.
      exists (if first then [] else [WriteMore]), []. done.
    + apply follows_app_l. by apply IH.
Qed.

Lemma encodeFields_joinFrom (e : @apStructEncoder Value) ptr order st :
  encodeFields e ptr order st
  = ((st.1 ++ joinFrom st.2 (map (typedMember ptr) (kept e ptr order)))%list,
     st.2 && nilb (kept e ptr order)).
Proof.
  revert st. induction order as [|[key binding] rest IH]; intros [out first].
  - simpl. by rewrite app_nil_r, andb_true_r.
  - simpl. unfold kept in *. simpl.
    destruct (skipped e ptr (key, binding)); simpl.
    + apply IH.
    + rewrite IH. simpl. rewrite andb_false_r. f_equal.
      unfold typedMember at 2. simpl. by rewrite <- app_assoc.
Qed.

Lemma encodeAP_joinFrom (order : list (string * string)) st :
  encodeAP order st
  = ((st.1 ++ joinFrom st.2 (map apMember order))%list, st.2 && nilb order).
Proof.
  revert st. induction order as [|[k v] rest IH]; intros [out first].
  - simpl. by rewrite app_nil_r, andb_true_r.
  - simpl. rewrite IH. simpl. rewrite andb_false_r. f_equal.
    by rewrite <- app_assoc.
Qed.

Lemma mapRange_elem {V : Type} (m : gmap string V) order k v :
  mapRange m order -> (k, v) ∈ order <-> m !! k = Some v.
Proof.
  unfold mapRange. intros ->. apply elem_of_map_to_list.
Qed.

Lemma mapRange_empty {V : Type} (order : list (string * V)) :
  mapRange ∅ order -> order = [].
Proof.
  unfold mapRange. rewrite map_to_list_empty. apply Permutation_nil_r.
Qed.

(** The stream of [EncodeIn] in closed form. *)
Lemma EncodeIn_joinFrom (e : @apStructEncoder Value) ptr heap fieldOrder apOrder :
  mapRange (apOf e ptr heap) apOrder ->
  EncodeIn e ptr fieldOrder apOrder
  = WriteObjectStart
      :: (joinFrom true (map (typedMember ptr) (kept e ptr fieldOrder)
                         ++ map apMember apOrder)
          ++ [WriteObjectEnd])%list.
Proof.
  intros Hap. unfold EncodeIn.
  rewrite joinFrom_app. simpl.
  destruct (enc_APBinding e) as [binding|] eqn:Hb.
  - rewrite encodeAP_joinFrom, encodeFields_joinFrom. simpl.
    rewrite <- !app_assoc. simpl. f_equal. f_equal. f_equal.
    f_equal. by destruct (kept e ptr fieldOrder).
  - unfold apOf in Hap. rewrite Hb in Hap.
    apply mapRange_empty in Hap as ->.
    rewrite encodeFields_joinFrom. simpl. by rewrite app_nil_r.
Qed.

Lemma mapRange_list_to_map {V : Type} (order : list (string * V)) :
  NoDup order.*1 -> mapRange (list_to_map order) order.
Proof. intros H. unfold mapRange. by rewrite map_to_list_to_map. Qed.


(** Every stream [Encode] can write, in closed form. *)
Lemma Encode_joinFrom (e : @apStructEncoder Value) ptr heap out :
  Encode e ptr heap out ->
  exists fieldOrder apOrder,
    mapRange (enc_Fields e) fieldOrder
    /\ mapRange (apOf e ptr heap) apOrder
    /\ out = WriteObjectStart
               :: (joinFrom true (map (typedMember ptr) (kept e ptr fieldOrder)
                                  ++ map apMember apOrder)
                   ++ [WriteObjectEnd])%list.
Proof.
  intros (fieldOrder & apOrder & Hf & Ha & ->).
  exists fieldOrder, apOrder. split; [done|]. split; [done|].
  by eapply EncodeIn_joinFrom.
Qed.

(** A typed entry that is not skipped is written, with its value next. *)
Lemma Encode_emits_kept (e : @apStructEncoder Value) ptr heap out k b :
  Encode e ptr heap out ->
  enc_Fields e !! k = Some b ->
  skipped e ptr (k, b) = false ->
  follows (WriteObjectField k)
          (WriteRaw (EncEncode b (fieldVal ptr (Field b)))) out.
Proof.
  intros (fieldOrder & apOrder & Hf & Ha & ->)%Encode_joinFrom Hk Hskip.
  apply (follows_app_l _ _ [WriteObjectStart]), follows_app_r, follows_joinFrom.
  apply elem_of_app. left.
  apply (list_elem_of_fmap_2 (typedMember ptr) _ (k, b)).
  unfold kept. apply list_elem_of_In, filter_In. split.
  - apply list_elem_of_In. by apply (mapRange_elem (enc_Fields e)).
  - by rewrite Hskip.
Qed.


(** A key that is written comes from a kept typed entry or from the
    additional-properties map. *)
Lemma Encode_key_origin (e : @apStructEncoder Value) ptr heap out k :
  Encode e ptr heap out ->
  WriteObjectField k ∈ out ->
  (exists b, enc_Fields e !! k = Some b /\ skipped e ptr (k, b) = false)
  \/ is_Some (apOf e ptr heap !! k).
Proof.
  intros (fieldOrder & apOrder & Hf & Ha & ->)%Encode_joinFrom Hin.
  apply elem_of_fieldKeys in Hin.
  change (WriteObjectStart :: ?l) with ([WriteObjectStart] ++ l)%list in Hin.
  rewrite joinFrom_app, !fieldKeys_app in Hin.
  rewrite fieldKeys_joinFrom_typed, fieldKeys_joinFrom_ap in Hin. simpl in Hin.
  rewrite app_nil_r in Hin.
  apply elem_of_app in Hin as [Hin|Hin].
  - left. apply list_elem_of_fmap in Hin as ([k' b] & -> & Hin). simpl.
    unfold kept in Hin. apply list_elem_of_In, filter_In in Hin as [Hin Hkeep].
    exists b. split.
    + apply (mapRange_elem (enc_Fields e) fieldOrder); [done|].
      by apply list_elem_of_In.
    + by destruct (skipped e ptr (k', b)).
  - right. apply list_elem_of_fmap in Hin as ([k' v] & -> & Hin). simpl.
    exists v. by apply (mapRange_elem (apOf e ptr heap) apOrder).
Qed.

(** ** The decorators *)

Lemma promoteEmbedded_bound e store name binding :
  apLookup e name = Some binding ->
  promoteEmbedded e store name = Some e.
Proof. intros H. unfold promoteEmbedded. by rewrite H. Qed.

Lemma DecorateDecoder_Replaced e store typ e1 (d : @apStructDecoder Value) :
  DecorateDecoder ToLower e store typ = Some (e1, Replaced d) ->
  exists binding,
    apLookup e1 (typeName typ) = Some binding /\ dec_APBinding d = Some binding.
Proof.
  unfold DecorateDecoder.
  destruct (isStruct typ); simpl; [|done].
  destruct (promoteEmbedded e store (typeName typ)) as [e'|]; [|done].
  destruct (apLookup e' (typeName typ)) as [binding|] eqn:Hap; [|done].
  destruct (Desc e' !! typeName typ ≫= (store !!.)) as [dsc|]; [|done].
  destruct (decoderFields ToLower (Fields dsc) ∅) as [fields|]; [|done].
  intros [= <- <-]. by exists binding.
Qed.

Lemma DecorateEncoder_Replaced e store typ e1 (enc : @apStructEncoder Value) :
  DecorateEncoder e store typ = Some (e1, Replaced enc) ->
  exists binding dsc,
    promoteEmbedded e store (typeName typ) = Some e1
    /\ APBinding e1 !! typeName typ = Some (Some binding)
    /\ Desc e1 !! typeName typ ≫= (store !!.) = Some dsc
    /\ encoderFields (Fields dsc) ∅ = Some (enc_Fields enc)
    /\ enc_APBinding enc = Some binding
    /\ omitEmpties typ = Some (OmitEmpties enc).
Proof.
  unfold DecorateEncoder.
  destruct (isStruct typ); simpl; [|done].
  destruct (promoteEmbedded e store (typeName typ)) as [e'|]; [|done].
  destruct (APBinding e' !! typeName typ) as [[binding|]|] eqn:Hap; [|done|done].
  destruct (Desc e' !! typeName typ ≫= (store !!.)) as [dsc|] eqn:Hd; [|done].
  destruct (encoderFields (Fields dsc) ∅) as [fields|] eqn:Hf; [|done].
  destruct (omitEmpties typ) as [empties|]; [|done].
  intros [= <- <-]. exists binding, dsc. simpl. by repeat split.
Qed.

(** The name table of the encoder: one entry per encode name, the last
    binding in descriptor order winning. *)
Lemma encoderFields_entries (bindings : list (@Binding Value)) fields fields' :
  encoderFields bindings fields = Some fields' ->
  fields' = list_to_map (rev (toNameEntries bindings)) ∪ fields.
Proof.
  revert fields. induction bindings as [|b rest IH]; intros fields; simpl.
  - intros [= <-]. by rewrite (left_id_L ∅ (∪)).
  - unfold toNameEntries. simpl. fold (toNameEntries rest).
    destruct (ToNames b) as [|toName names]; [done|].
    intros ->%IH. simpl.
    rewrite list_to_map_app. simpl.
    rewrite insert_empty, <- (assoc_L (∪)).
    by rewrite <- insert_union_singleton_l.
Qed.

(** C2, as the code has it: the decorated encoder keeps the typed fields
    in a map from encode name to binding (one entry per encode name of the
    descriptor, the last binding in descriptor order winning) and writes
    them in the order a range over that map visits them, which Go leaves
    open; an entry is skipped exactly when its key is marked omit-empty and
    its value is empty; [WriteMore] is written before every member after
    the first one written; the entries of the additional-properties map
    follow the typed fields. *)
Theorem Encode_members e store typ e1 (enc : @apStructEncoder Value) ptr heap out :
  DecorateEncoder e store typ = Some (e1, Replaced enc) ->
  Encode enc ptr heap out ->
  exists dsc fieldOrder apOrder,
    Desc e1 !! typeName typ ≫= (store !!.) = Some dsc
    /\ enc_Fields enc = list_to_map (rev (toNameEntries (Fields dsc)))
    /\ fieldOrder ≡ₚ map_to_list (enc_Fields enc)
    /\ apOrder ≡ₚ map_to_list (apOf enc ptr heap)
    /\ out = WriteObjectStart
               :: (joinFrom true
                     (map (typedMember ptr)
                          (List.filter (fun m => negb (skipped enc ptr m)) fieldOrder)
                      ++ map apMember apOrder)
                   ++ [WriteObjectEnd])%list.
Proof.
  intros (binding & dsc & _ & _ & Hd & Hfields & _ & _)%DecorateEncoder_Replaced
         (fieldOrder & apOrder & Hf & Ha & ->)%Encode_joinFrom.
  exists dsc, fieldOrder, apOrder.
  split; [done|]. split.
  - apply encoderFields_entries in Hfields. by rewrite (right_id_L ∅ (∪)) in Hfields.
  - by repeat split.
Qed.


(** C10: [IsEmpty] of a decorated encoder is false for every instance;
    so a field of an enclosing decorated struct whose emptiness is that of
    a decorated struct ([sub] reads the inner instance out of the field) is
    written by the enclosing [Encode] whether or not it is marked
    omit-empty. *)
Theorem IsEmpty_false :
  (forall (enc : @apStructEncoder Value) ptr, IsEmpty enc ptr = false)
  /\ (forall (outer inner : @apStructEncoder Value) (sub : Value -> @Instance Value)
             ptr heap out k b,
         Encode outer ptr heap out ->
         enc_Fields outer !! k = Some b ->
         (forall v, EncIsEmpty b v = IsEmpty inner (sub v)) ->
         follows (WriteObjectField k)
                 (WriteRaw (EncEncode b (fieldVal ptr (Field b)))) out).
Proof.
  split; [done|].
  intros outer inner sub ptr heap out k b Henc Hk Hempty.
  eapply Encode_emits_kept; [done|done|].
  unfold skipped. simpl. rewrite Hempty. unfold IsEmpty. apply andb_false_r.
Qed.


End Properties.

(** * Further properties *)

Section Further.

Context {Value : Type}.
Variable ToLower : string -> string.

Implicit Types (b binding : @Binding Value)
  (e : @additionalPropertiesExtension Value)
  (store : gmap nat (@StructDescriptor Value))
  (d : @apStructDecoder Value)
  (enc : @apStructEncoder Value)
  (ptr : @Instance Value)
  (heap : gmap nat (gmap string string)).

(** ** What [Decode] reads and what it leaves alone *)

Lemma membersRead_stop (pre post : list (string * string)) val :
  membersRead (pre ++ (EmptyString, val) :: post) = membersRead pre.
Proof.
  induction pre as [|[k v] pre IH]; simpl; [done|].
  destruct (String.eqb k EmptyString); [done|]. by rewrite IH.
Qed.

(** X3: [Decode] reads nothing from the first empty key on: an object and
    its part before an empty key decode to the same instance and heap. *)
Theorem Decode_stops_at_empty_key d ptr heap (pre post : list (string * string)) val :
  Decode ToLower d ptr heap (pre ++ (EmptyString, val) :: post)
  = Decode ToLower d ptr heap pre.
Proof. by rewrite !Decode_unfold, membersRead_stop. Qed.






(** ** The table of the decorated decoder *)

Lemma decoderFields_unclaimed (bindings : list (@Binding Value)) fields fields' key :
  decoderFields ToLower bindings fields = Some fields' ->
  Forall (fun b => ~ claimsKey ToLower key b) bindings ->
  fields' !! key = fields !! key.
Proof.
  intros Hf Hall. revert fields Hf.
  induction Hall as [|b rest Hb _ IH]; intros fields; simpl.
  - by intros [= <-].
  - unfold claimsKey in Hb.
    destruct (FromNames b) as [|fromName names]; [done|].
    intros ->%IH.
    rewrite !lookup_insert_ne; [done|intros ?|intros ?]; apply Hb; auto.
Qed.

Lemma decoderFields_claimed (bindings : list (@Binding Value)) fields fields' key :
  decoderFields ToLower bindings fields = Some fields' ->
  Exists (claimsKey ToLower key) bindings ->
  exists b, b ∈ bindings /\ claimsKey ToLower key b /\ fields' !! key = Some b.
Proof.
  revert fields. induction bindings as [|b rest IH]; intros fields Hf Hex.
  - by apply Exists_nil in Hex.
  - simpl in Hf.
    destruct (FromNames b) as [|fromName names] eqn:Hnames; [done|].
    destruct (decide (Exists (claimsKey ToLower key) rest)) as [Hrest|Hrest].
    + destruct (IH _ Hf Hrest) as (b' & Hin & Hc & Hl).
      exists b'. split; [by right|done].
    + apply Exists_cons in Hex as [Hb|Hex]; [|done].
      exists b. split; [by left|]. split; [done|].
      apply not_Exists_Forall in Hrest; [|intros ?; apply _].
      rewrite (decoderFields_unclaimed _ _ _ _ Hf Hrest).
      unfold claimsKey in Hb. rewrite Hnames in Hb.
      destruct (decide (ToLower fromName = key)) as [<-|Hne].
      * apply lookup_insert_eq.
      * destruct Hb as [<-|]; [|done].
        rewrite lookup_insert_ne by done. apply lookup_insert_eq.
Qed.

Lemma decoderFields_panics (bindings : list (@Binding Value)) fields :
  decoderFields ToLower bindings fields = None
  <-> Exists (fun b => FromNames b = []) bindings.
Proof.
  revert fields. induction bindings as [|b rest IH]; intros fields; simpl.
  - split; [done|]. by intros ?%Exists_nil.
  - rewrite Exists_cons.
    destruct (FromNames b) as [|fromName names].
    + split; auto.
    + rewrite IH. split; [auto|]. by intros [|].
Qed.

Lemma DecorateDecoder_table e store typ e1 d :
  DecorateDecoder ToLower e store typ = Some (e1, Replaced d) ->
  exists dsc,
    Desc e1 !! typeName typ ≫= (store !!.) = Some dsc
    /\ decoderFields ToLower (Fields dsc) ∅ = Some (dec_Fields d).
Proof.
  unfold DecorateDecoder.
  destruct (isStruct typ); simpl; [|done].
  destruct (promoteEmbedded e store (typeName typ)) as [e'|]; [|done].
  destruct (apLookup e' (typeName typ)) as [binding|]; [|done].
  destruct (Desc e' !! typeName typ ≫= (store !!.)) as [dsc|] eqn:Hd; [|done].
  destruct (decoderFields ToLower (Fields dsc) ∅) as [fields|] eqn:Hf; [|done].
  intros [= <- <-]. by exists dsc.
Qed.

(** X6: when the first decode names of the typed fields are pairwise
    different after lowercasing, the decorated decoder sends every key
    that lowercases like the decode name of a field to that field: the
    exact name, its lowercase form and any other spelling. *)
Theorem route_by_lowercase e store typ e1 d dsc b fromName names :
  DecorateDecoder ToLower e store typ = Some (e1, Replaced d) ->
  Desc e1 !! typeName typ ≫= (store !!.) = Some dsc ->
  (forall s, ToLower (ToLower s) = ToLower s) ->
  b ∈ Fields dsc ->
  FromNames b = fromName :: names ->
  (forall b' fromName' names',
      b' ∈ Fields dsc -> FromNames b' = fromName' :: names' ->
      ToLower fromName' = ToLower fromName -> b' = b) ->
  forall key, ToLower key = ToLower fromName -> route ToLower d key = Some b.
Proof.
  intros (dsc' & Hd' & Hf)%DecorateDecoder_table Hd Hidem Hin Hnames Huniq key Hkey.
  rewrite Hd in Hd'. injection Hd' as <-.
  assert (Hsame : forall k b', ToLower k = ToLower key -> b' ∈ Fields dsc ->
                               claimsKey ToLower k b' -> b' = b).
  { intros k b' Hk Hin' Hc. unfold claimsKey in Hc.
    destruct (FromNames b') as [|fromName' names'] eqn:Hn'; [done|].
    apply (Huniq b' fromName' names' Hin' Hn').
    rewrite <- Hkey, <- Hk. destruct Hc as [->| <-]; [done|]. by rewrite Hidem. }
  unfold route.
  destruct (decide (Exists (claimsKey ToLower key) (Fields dsc))) as [Hex|Hex].
  - destruct (decoderFields_claimed _ _ _ _ Hf Hex) as (b' & Hin' & Hc & ->).
    f_equal. by apply (Hsame key).
  - apply not_Exists_Forall in Hex; [|intros ?; apply _].
    rewrite (decoderFields_unclaimed _ _ _ _ Hf Hex), lookup_empty.
    assert (Exists (claimsKey ToLower (ToLower key)) (Fields dsc)) as Hex'.
    { apply Exists_exists. exists b. split; [done|].
      unfold claimsKey. rewrite Hnames. by right. }
    destruct (decoderFields_claimed _ _ _ _ Hf Hex') as (b' & Hin' & Hc & ->).
    f_equal. apply (Hsame (ToLower key)); [by rewrite Hidem|done|done].
Qed.

(** X7: a key is unknown to the decorated decoder, and goes to the
    additional-properties map, exactly when no typed field has a first
    decode name that equals the key or its lowercase form, as it is or
    lowercased. *)
Theorem route_unknown_iff e store typ e1 d dsc key :
  DecorateDecoder ToLower e store typ = Some (e1, Replaced d) ->
  Desc e1 !! typeName typ ≫= (store !!.) = Some dsc ->
  route ToLower d key = None
  <-> (forall b fromName names,
         b ∈ Fields dsc -> FromNames b = fromName :: names ->
         fromName <> key /\ ToLower fromName <> key
         /\ fromName <> ToLower key /\ ToLower fromName <> ToLower key).
Proof.
  intros (dsc' & Hd' & Hf)%DecorateDecoder_table Hd.
  rewrite Hd in Hd'. injection Hd' as <-.
  unfold route. split.
  - intros Hr b fromName names Hin Hnames.
    assert (forall k, dec_Fields d !! k = None -> ~ claimsKey ToLower k b) as Hno.
    { intros k Hk Hc.
      destruct (decoderFields_claimed _ _ _ k Hf) as (b' & _ & _ & Hb').
      - apply Exists_exists. by exists b.
      - by rewrite Hk in Hb'. }
    destruct (dec_Fields d !! key) eqn:H1; [done|].
    pose proof (Hno _ H1) as Hc1. pose proof (Hno _ Hr) as Hc2.
    unfold claimsKey in Hc1, Hc2. rewrite Hnames in Hc1, Hc2.
    repeat split; intros ?; auto.
  - intros Hall.
    assert (forall k, (k = key \/ k = ToLower key) ->
                      Forall (fun b => ~ claimsKey ToLower k b) (Fields dsc)) as Hno.
    { intros k Hk. apply Forall_forall. intros b Hin Hc.
      unfold claimsKey in Hc.
      destruct (FromNames b) as [|fromName names] eqn:Hnames; [done|].
      destruct (Hall b fromName names Hin Hnames) as (? & ? & ? & ?).
      destruct Hk as [-> | ->]; destruct Hc; done. }
    rewrite (decoderFields_unclaimed _ _ _ key Hf), lookup_empty by auto.
    rewrite (decoderFields_unclaimed _ _ _ (ToLower key) Hf) by auto.
    apply lookup_empty.
Qed.

(** ** The decorators *)

Lemma encoderFields_panics (bindings : list (@Binding Value)) fields :
  encoderFields bindings fields = None
  <-> Exists (fun b => ToNames b = []) bindings.
Proof.
  revert fields. induction bindings as [|b rest IH]; intros fields; simpl.
  - split; [done|]. by intros ?%Exists_nil.
  - rewrite Exists_cons.
    destruct (ToNames b) as [|toName names].
    + split; auto.
    + rewrite IH. split; [auto|]. by intros [|].
Qed.

Lemma apLookup_Some e name binding :
  apLookup e name = Some binding <-> APBinding e !! name = Some (Some binding).
Proof.
  unfold apLookup. destruct (APBinding e !! name) as [[b'|]|]; simpl;
    split; intros H; by simplify_eq.
Qed.

Lemma apLookup_None e name :
  apLookup e name = None
  <-> APBinding e !! name = None \/ APBinding e !! name = Some None.
Proof.
  unfold apLookup. destruct (APBinding e !! name) as [[b'|]|]; simpl;
    split; intros H; try done; try (by left); try (by right);
    by destruct H.
Qed.

(** X8: for a struct type that has a binding and a descriptor in the
    registry, [DecorateDecoder] panics exactly when a typed field of the
    descriptor has no decode name, and [DecorateEncoder] exactly when a
    typed field has no encode name or [omitEmpties] panics on the type;
    otherwise both return. *)
Theorem decorators_panic_iff e store typ ap dsc :
  isStruct typ = true ->
  apLookup e (typeName typ) = Some ap ->
  Desc e !! typeName typ ≫= (store !!.) = Some dsc ->
  (DecorateDecoder ToLower e store typ = None
   <-> Exists (fun b => FromNames b = []) (Fields dsc))
  /\ (DecorateEncoder e store typ = None
      <-> Exists (fun b => ToNames b = []) (Fields dsc) \/ omitEmpties typ = None).
Proof.
  intros Hs Hap Hd. split.
  - unfold DecorateDecoder.
    rewrite Hs, (promoteEmbedded_bound _ _ _ _ Hap), Hap, Hd. simpl.
    rewrite <- (decoderFields_panics (Fields dsc) ∅).
    by destruct (decoderFields ToLower (Fields dsc) ∅).
  - unfold DecorateEncoder.
    rewrite Hs, (promoteEmbedded_bound _ _ _ _ Hap). simpl.
    apply apLookup_Some in Hap. rewrite Hap, Hd.
    rewrite <- (encoderFields_panics (Fields dsc) ∅).
    destruct (encoderFields (Fields dsc) ∅), (omitEmpties typ); simpl;
      split; try done; auto; by intros [|].
Qed.

(** X9: from the same registry and store the two decorators make the
    same decision: when both return, they leave the same registry, and
    either both hand back the codec they were given or both replace it,
    with the same additional-properties binding. *)
Theorem decorators_agree e store typ e1 e2
    (rd : Decorated (@apStructDecoder Value)) (re : Decorated (@apStructEncoder Value)) :
  DecorateDecoder ToLower e store typ = Some (e1, rd) ->
  DecorateEncoder e store typ = Some (e2, re) ->
  e1 = e2
  /\ ((rd = Original /\ re = Original)
      \/ exists d enc binding,
           rd = Replaced d /\ re = Replaced enc
           /\ dec_APBinding d = Some binding /\ enc_APBinding enc = Some binding).
Proof.
  unfold DecorateDecoder, DecorateEncoder.
  destruct (isStruct typ); simpl.
  2:{ intros [= <- <-] [= <- <-]. split; [done|]. by left. }
  destruct (promoteEmbedded e store (typeName typ)) as [e'|]; [|done].
  destruct (apLookup e' (typeName typ)) as [binding|] eqn:Hap.
  - apply apLookup_Some in Hap. rewrite Hap.
    destruct (Desc e' !! typeName typ ≫= (store !!.)) as [dsc|]; [|done].
    destruct (decoderFields ToLower (Fields dsc) ∅) as [fields|]; [|done].
    destruct (encoderFields (Fields dsc) ∅) as [fields'|]; [|done].
    destruct (omitEmpties typ) as [empties|]; [|done].
    intros [= <- <-] [= <- <-]. split; [done|]. right.
    by eexists _, _, binding.
  - apply apLookup_None in Hap as [-> | ->];
      intros [= <- <-] [= <- <-]; (split; [done|]); by left.
Qed.

Lemma scanAnonymous_nil_entry e (fs : list StructField) name :
  scanAnonymous e fs = None ->
  scanAnonymous {| Desc := Desc e; APBinding := <[name := None]> (APBinding e) |} fs
  = None.
Proof.
  induction fs as [|f fs IH]; simpl; [done|].
  destruct (fanon f); [|done].
  destruct (decide (name = typeName (ftype f))) as [<-|Hne].
  - by rewrite lookup_insert_eq.
  - rewrite lookup_insert_ne by done.
    by destruct (APBinding e !! typeName (ftype f)).
Qed.

Lemma promoteEmbedded_idempotent e store name e1 :
  promoteEmbedded e store name = Some e1 ->
  promoteEmbedded e1 store name = Some e1.
Proof.
  unfold promoteEmbedded at 1.
  destruct (apLookup e name) as [b0|] eqn:Hap.
  { intros [= <-]. by apply (promoteEmbedded_bound _ _ _ b0). }
  destruct (Desc e !! name) as [p|] eqn:Hp.
  2:{ intros [= <-]. unfold promoteEmbedded. by rewrite Hap, Hp. }
  destruct (store !! p) as [dsc|] eqn:Hdsc; [|done].
  intros [= <-].
  destruct (embeddedAPBinding e (DescType dsc)) as [b'|] eqn:Hemb.
  - apply (promoteEmbedded_bound _ _ _ b'). apply apLookup_Some. simpl.
    apply lookup_insert_eq.
  - unfold promoteEmbedded, apLookup. simpl.
    rewrite lookup_insert_eq, Hp, Hdsc. simpl.
    rewrite insert_insert_eq. do 3 f_equal.
    unfold embeddedAPBinding in *.
    destruct (DescType dsc) as [n fs|n]; [|done].
    by apply scanAnonymous_nil_entry.
Qed.

(** X10: decorating again changes nothing: from the registry a decorator
    leaves, the same decorator and the other one leave that registry as it
    is, and the same decorator returns what it returned before. *)
Theorem decorators_idempotent e store typ :
  (forall e1 rd,
      DecorateDecoder ToLower e store typ = Some (e1, rd) ->
      DecorateDecoder ToLower e1 store typ = Some (e1, rd)
      /\ forall e2 re, DecorateEncoder e1 store typ = Some (e2, re) -> e2 = e1)
  /\ (forall e1 re,
        DecorateEncoder e store typ = Some (e1, re) ->
        DecorateEncoder e1 store typ = Some (e1, re)
        /\ forall e2 rd, DecorateDecoder ToLower e1 store typ = Some (e2, rd) -> e2 = e1).
Proof.
  split; intros e1 r; unfold DecorateDecoder, DecorateEncoder;
    (destruct (isStruct typ); simpl;
     [|intros [= <- <-]; split; [done|by intros ? ? [= <- _]]]);
    destruct (promoteEmbedded e store (typeName typ)) as [e'|] eqn:Hp; try done;
    apply promoteEmbedded_idempotent in Hp.
  - destruct (apLookup e' (typeName typ)) as [binding|] eqn:Hap.
    + destruct (Desc e' !! typeName typ ≫= (store !!.)) as [dsc|] eqn:Hd; [|done].
      destruct (decoderFields ToLower (Fields dsc) ∅) as [fields|] eqn:Hf; [|done].
      intros [= <- <-]. rewrite Hp, Hap, Hd, ?Hf. split; [done|].
      intros e2 re.
      destruct (APBinding e' !! typeName typ) as [[?|]|];
        [|by intros [= <- _]|by intros [= <- _]].
      destruct (encoderFields (Fields dsc) ∅), (omitEmpties typ); try done;
        by intros [= <- _].
    + intros [= <- <-]. rewrite Hp, Hap. split; [done|].
      intros e2 re.
      apply apLookup_None in Hap as [-> | ->]; by intros [= <- _].
  - destruct (APBinding e' !! typeName typ) as [[binding|]|] eqn:Hap.
    + destruct (Desc e' !! typeName typ ≫= (store !!.)) as [dsc|] eqn:Hd; [|done].
      destruct (encoderFields (Fields dsc) ∅) as [fields|] eqn:Hf; [|done].
      destruct (omitEmpties typ) as [empties|] eqn:Ho; [|done].
      intros [= <- <-]. rewrite Hp, Hap, Hd, ?Hf, ?Ho. split; [done|].
      intros e2 rd. apply apLookup_Some in Hap. rewrite Hap.
      destruct (decoderFields ToLower (Fields dsc) ∅); [|done].
      by intros [= <- _].
    + intros [= <- <-]. rewrite Hp, Hap. split; [done|].
      intros e2 rd.
      assert (apLookup e' (typeName typ) = None) as ->
        by (apply apLookup_None; by right).
      by intros [= <- _].
    + intros [= <- <-]. rewrite Hp, Hap. split; [done|].
      intros e2 rd.
      assert (apLookup e' (typeName typ) = None) as ->
        by (apply apLookup_None; by left).
      by intros [= <- _].
Qed.

(** ** The registry *)

(** X11: [embeddedAPBinding] looks at the anonymous fields only, in
    declaration order, and returns the entry of the first one whose type
    name is a key of [APBinding], nil or not; it returns nil when there is
    no such field and for a type that is not a struct. *)
Theorem embeddedAPBinding_first_entry e name (fs : list StructField) :
  (forall pre f post a,
      fs = (pre ++ f :: post)%list ->
      fanon f = true ->
      APBinding e !! typeName (ftype f) = Some a ->
      Forall (fun g => fanon g = true -> APBinding e !! typeName (ftype g) = None) pre ->
      embeddedAPBinding e (TStruct name fs) = a)
  /\ (Forall (fun g => fanon g = true -> APBinding e !! typeName (ftype g) = None) fs ->
      embeddedAPBinding e (TStruct name fs) = None)
  /\ embeddedAPBinding e (TOther name) = None.
Proof.
  assert (forall l, Forall (fun g => fanon g = true ->
                              APBinding e !! typeName (ftype g) = None) l ->
                    forall rest, scanAnonymous e (l ++ rest) = scanAnonymous e rest)
    as Hskip.
  { intros l Hl rest. induction Hl as [|g l Hg _ IH]; simpl; [done|].
    destruct (fanon g); [|done]. by rewrite Hg. }
  split; [|split; [|done]].
  - intros pre f post a -> Hanon Hentry Hpre. simpl.
    rewrite (Hskip pre Hpre). simpl. by rewrite Hanon, Hentry.
  - intros Hall. simpl. rewrite <- (app_nil_r fs). by rewrite (Hskip fs Hall).
Qed.

Lemma removeAt_filter (fields : list (@Binding Value)) idx b :
  scanWildcard 0 fields = Some (idx, b) ->
  List.filter (fun x => negb (isWildcard x)) (removeAt idx fields)
  = List.filter (fun x => negb (isWildcard x)) fields
  /\ S (length (removeAt idx fields)) = length fields.
Proof.
  assert (forall n, scanWildcard n fields = Some (idx, b) ->
            exists pre post, fields = (pre ++ b :: post)%list
                             /\ idx = n + length pre /\ isWildcard b = true) as Hsplit.
  { induction fields as [|x l IH]; intros n; simpl; [done|].
    destruct (isWildcard x) eqn:Hx.
    - intros [= <- <-]. exists [], l. simpl. repeat split; [lia|done].
    - intros (pre & post & -> & -> & Hb)%IH. exists (x :: pre), post. simpl.
      repeat split; [lia|done]. }
  intros (pre & post & -> & -> & Hb)%Hsplit. simpl.
  rewrite removeAt_middle. split.
  - rewrite !List.filter_app. simpl. by rewrite Hb.
  - rewrite !length_app. simpl. lia.
Qed.

(** X13: [UpdateStructDescriptor] removes at most one field and never a
    field that is not a wildcard: the typed fields of the descriptor stay,
    in their order; no other descriptor of the store and no registry entry
    of another type name changes. *)
Theorem UpdateStructDescriptor_frame e store desc dsc e1 store1 :
  store !! desc = Some dsc ->
  UpdateStructDescriptor e store desc = Some (e1, store1) ->
  (exists dsc1,
      store1 !! desc = Some dsc1
      /\ DescType dsc1 = DescType dsc
      /\ List.filter (fun x => negb (isWildcard x)) (Fields dsc1)
         = List.filter (fun x => negb (isWildcard x)) (Fields dsc)
      /\ length (Fields dsc) <= S (length (Fields dsc1))
      /\ length (Fields dsc1) <= length (Fields dsc))
  /\ (forall p, p <> desc -> store1 !! p = store !! p)
  /\ (forall name, name <> typeName (DescType dsc) ->
        Desc e1 !! name = Desc e !! name
        /\ APBinding e1 !! name = APBinding e !! name).
Proof.
  intros Hd. unfold UpdateStructDescriptor. rewrite Hd.
  destruct (Desc e !! typeName (DescType dsc)).
  { intros [= <- <-]. split; [|done]. exists dsc. split_and!; try done; lia. }
  destruct (scanWildcard 0 (Fields dsc)) as [[idx b]|] eqn:Hscan.
  - intros [= <- <-]. destruct (removeAt_filter _ _ _ Hscan) as [Hfilter Hlen].
    split; [|split].
    + eexists. rewrite lookup_insert_eq. split; [done|]. simpl.
      split_and!; try done; lia.
    + intros p Hp. by rewrite lookup_insert_ne.
    + intros name Hname. simpl. by rewrite !lookup_insert_ne.
  - intros [= <- <-]. split; [|split].
    + exists dsc. split_and!; try done; lia.
    + done.
    + intros name Hname. simpl. by rewrite lookup_insert_ne.
Qed.

(** The two facts every reachable registry satisfies. *)
Lemma registry_invariant e :
  reachable ToLower e ->
  (forall name b, APBinding e !! name = Some (Some b) -> isWildcard b = true)
  /\ (forall name, is_Some (APBinding e !! name) -> is_Some (Desc e !! name)).
Proof.
  assert (forall e0 store name e1,
    ((forall name b, APBinding e0 !! name = Some (Some b) -> isWildcard b = true)
     /\ (forall name, is_Some (APBinding e0 !! name) -> is_Some (Desc e0 !! name))) ->
    promoteEmbedded e0 store name = Some e1 ->
    (forall name b, APBinding e1 !! name = Some (Some b) -> isWildcard b = true)
    /\ (forall name, is_Some (APBinding e1 !! name) -> is_Some (Desc e1 !! name)))
    as Hpromote.
  { intros e0 store name e1 [Hw Hk]. unfold promoteEmbedded.
    destruct (apLookup e0 name); [by intros [= <-]|].
    destruct (Desc e0 !! name) as [p|] eqn:Hp; [|by intros [= <-]].
    destruct (store !! p) as [dsc|]; [|done].
    intros [= <-]. simpl. split.
    - intros name' b. destruct (decide (name = name')) as [<-|Hne].
      + rewrite lookup_insert_eq. intros [= Hemb].
        unfold embeddedAPBinding in Hemb.
        destruct (DescType dsc) as [n fs|n]; [|done].
        induction fs as [|f fs IH]; simpl in Hemb; [done|].
        destruct (fanon f); [|by apply IH].
        destruct (APBinding e0 !! typeName (ftype f)) as [a|] eqn:Ha; [|by apply IH].
        subst a. by apply (Hw _ _ Ha).
      + rewrite lookup_insert_ne by done. apply Hw.
    - intros name'. destruct (decide (name = name')) as [<-|Hne].
      + intros _. by rewrite Hp.
      + rewrite lookup_insert_ne by done. apply Hk. }
  induction 1 as [|e0 store desc e1 store1 _ IH Hcall
                  |e0 store typ e1 r _ IH Hcall|e0 store typ e1 r _ IH Hcall].
  - split; intros name; simpl; rewrite lookup_empty; [done|by intros [? ?]].
  - destruct IH as [Hw Hk]. unfold UpdateStructDescriptor in Hcall.
    destruct (store !! desc) as [dsc|]; [|done].
    destruct (Desc e0 !! typeName (DescType dsc)); [by injection Hcall as <- <-|].
    destruct (scanWildcard 0 (Fields dsc)) as [[idx b]|] eqn:Hscan;
      injection Hcall as <- <-; simpl; split.
    + intros name b'. destruct (decide (typeName (DescType dsc) = name)) as [<-|Hne].
      * rewrite lookup_insert_eq. intros [= <-].
        clear -Hscan. revert Hscan. generalize 0.
        induction (Fields dsc) as [|x l IHl]; intros n; simpl; [done|].
        destruct (isWildcard x) eqn:Hx; [by intros [= _ <-]|apply IHl].
      * rewrite lookup_insert_ne by done. apply Hw.
    + intros name. destruct (decide (typeName (DescType dsc) = name)) as [<-|Hne].
      * intros _. rewrite lookup_insert_eq. by eexists.
      * rewrite !lookup_insert_ne by done. apply Hk.
    + done.
    + intros name Hn. destruct (decide (typeName (DescType dsc) = name)) as [<-|Hne].
      * rewrite lookup_insert_eq. by eexists.
      * rewrite lookup_insert_ne by done. by apply Hk.
  - unfold DecorateDecoder in Hcall.
    destruct (isStruct typ); simpl in Hcall; [|by injection Hcall as <- _].
    destruct (promoteEmbedded e0 store (typeName typ)) as [e'|] eqn:Hp; [|done].
    apply (Hpromote _ _ _ _ IH) in Hp.
    destruct (apLookup e' (typeName typ)); [|by injection Hcall as <- _].
    destruct (Desc e' !! typeName typ ≫= (store !!.)) as [dsc|]; [|done].
    destruct (decoderFields ToLower (Fields dsc) ∅); [|done].
    by injection Hcall as <- _.
  - unfold DecorateEncoder in Hcall.
    destruct (isStruct typ); simpl in Hcall; [|by injection Hcall as <- _].
    destruct (promoteEmbedded e0 store (typeName typ)) as [e'|] eqn:Hp; [|done].
    apply (Hpromote _ _ _ _ IH) in Hp.
    destruct (APBinding e' !! typeName typ) as [[?|]|];
      [|by injection Hcall as <- _|by injection Hcall as <- _].
    destruct (Desc e' !! typeName typ ≫= (store !!.)) as [dsc|]; [|done].
    destruct (encoderFields (Fields dsc) ∅), (omitEmpties typ); try done.
    by injection Hcall as <- _.
Qed.

(** X14: in every registry the extension can reach from the new one, a
    binding recorded in [APBinding] is a field whose decode names are
    exactly ["*"], and every type name with an entry in [APBinding] has a
    descriptor in [Desc]; so the binding of every decorated decoder and
    encoder is such a wildcard field. *)
Theorem reachable_bindings_are_wildcards e :
  reachable ToLower e ->
  (forall name b, APBinding e !! name = Some (Some b) -> isWildcard b = true)
  /\ (forall name, is_Some (APBinding e !! name) -> is_Some (Desc e !! name))
  /\ (forall store typ e1 d,
        DecorateDecoder ToLower e store typ = Some (e1, Replaced d) ->
        exists b, dec_APBinding d = Some b /\ isWildcard b = true)
  /\ (forall store typ e1 enc,
        DecorateEncoder e store typ = Some (e1, Replaced enc) ->
        exists b, enc_APBinding enc = Some b /\ isWildcard b = true).
Proof.
  intros Hreach. destruct (registry_invariant e Hreach) as [Hw Hk].
  split; [done|]. split; [done|]. split.
  - intros store typ e1 d Hcall.
    destruct (registry_invariant e1 (reachable_decoder _ _ _ _ _ _ Hreach Hcall))
      as [Hw1 _].
    apply DecorateDecoder_Replaced in Hcall as (b & Hb%apLookup_Some & Hd).
    exists b. split; [done|]. by apply (Hw1 _ _ Hb).
  - intros store typ e1 enc Hcall.
    destruct (registry_invariant e1 (reachable_encoder _ _ _ _ _ _ Hreach Hcall))
      as [Hw1 _].
    apply DecorateEncoder_Replaced in Hcall as (b & dsc & _ & Hb & _ & _ & He & _).
    exists b. split; [done|]. by apply (Hw1 _ _ Hb).
Qed.

Lemma scanAnonymous_ext e e' (fs : list StructField) :
  APBinding e = APBinding e' -> scanAnonymous e fs = scanAnonymous e' fs.
Proof.
  intros Heq. induction fs as [|f fs IH]; simpl; [done|].
  by rewrite Heq, IH.
Qed.

Lemma embeddedAPBinding_ext e e' typ :
  APBinding e = APBinding e' -> embeddedAPBinding e typ = embeddedAPBinding e' typ.
Proof. intros Heq. destruct typ; [|done]. by apply scanAnonymous_ext. Qed.

(** X12: registration followed by decoration, for a struct type with a
    wildcard field of its own.  The decorators that return replace the
    codec, leave the registry as registration left it, use the first
    wildcard field as the binding, whatever the type embeds, and build
    their tables from the other fields of the descriptor. *)
Theorem register_wildcard_then_decorate e store desc dsc
    (pre post : list (@Binding Value)) b e1 store1 :
  store !! desc = Some dsc ->
  isStruct (DescType dsc) = true ->
  Desc e !! typeName (DescType dsc) = None ->
  Fields dsc = (pre ++ b :: post)%list ->
  Forall (fun x => isWildcard x = false) pre ->
  isWildcard b = true ->
  UpdateStructDescriptor e store desc = Some (e1, store1) ->
  (forall e2 rd,
      DecorateDecoder ToLower e1 store1 (DescType dsc) = Some (e2, rd) ->
      e2 = e1
      /\ exists d, rd = Replaced d /\ dec_APBinding d = Some b
                   /\ decoderFields ToLower (pre ++ post) ∅ = Some (dec_Fields d))
  /\ (forall e2 re,
        DecorateEncoder e1 store1 (DescType dsc) = Some (e2, re) ->
        e2 = e1
        /\ exists enc, re = Replaced enc /\ enc_APBinding enc = Some b
                       /\ encoderFields (pre ++ post) ∅ = Some (enc_Fields enc)).
Proof.
  intros Hd Hs Hnew Hfields Hpre Hb. unfold UpdateStructDescriptor.
  rewrite Hd, Hnew, Hfields, (scanWildcard_found pre post b 0 Hpre Hb). simpl.
  rewrite removeAt_middle. intros [= <- <-].
  set (e1 := {| Desc := <[typeName (DescType dsc) := desc]> (Desc e);
                APBinding := <[typeName (DescType dsc) := Some b]> (APBinding e) |}).
  assert (apLookup e1 (typeName (DescType dsc)) = Some b) as Hap.
  { apply apLookup_Some. simpl. apply lookup_insert_eq. }
  split.
  - intros e2 rd. unfold DecorateDecoder.
    rewrite Hs, (promoteEmbedded_bound _ _ _ _ Hap), Hap. simpl.
    rewrite !lookup_insert_eq. simpl. rewrite lookup_insert_eq. simpl.
    destruct (decoderFields ToLower (pre ++ post) ∅) as [fields|]; [|done].
    intros [= <- <-]. split; [done|]. by eexists.
  - intros e2 re. unfold DecorateEncoder.
    rewrite Hs, (promoteEmbedded_bound _ _ _ _ Hap). simpl.
    rewrite !lookup_insert_eq. simpl. rewrite lookup_insert_eq. simpl.
    destruct (encoderFields (pre ++ post) ∅) as [fields|]; [|done].
    destruct (omitEmpties (DescType dsc)); [|done].
    intros [= <- <-]. split; [done|]. by eexists.
Qed.

(** X15: registration followed by decoration, for a struct type without
    a wildcard field and without an entry in [APBinding].  The encoder is
    replaced exactly when [embeddedAPBinding] finds a binding for the type,
    and then that binding is the one used; otherwise the encoder given is
    returned.  Either way the registry records what the scan found under
    the name of the type. *)
Theorem register_plain_then_decorate e store desc dsc e1 store1 e2
    (re : Decorated (@apStructEncoder Value)) :
  store !! desc = Some dsc ->
  isStruct (DescType dsc) = true ->
  Desc e !! typeName (DescType dsc) = None ->
  APBinding e !! typeName (DescType dsc) = None ->
  Forall (fun x => isWildcard x = false) (Fields dsc) ->
  UpdateStructDescriptor e store desc = Some (e1, store1) ->
  DecorateEncoder e1 store1 (DescType dsc) = Some (e2, re) ->
  APBinding e2 !! typeName (DescType dsc)
    = Some (embeddedAPBinding e (DescType dsc))
  /\ match embeddedAPBinding e (DescType dsc) with
     | Some b => exists enc, re = Replaced enc /\ enc_APBinding enc = Some b
     | None => re = Original
     end.
Proof.
  intros Hd Hs Hnew Hnoap Hplain. unfold UpdateStructDescriptor.
  rewrite Hd, Hnew, (scanWildcard_none _ 0 Hplain). intros [= <- <-].
  unfold DecorateEncoder, promoteEmbedded, apLookup. simpl.
  rewrite Hs, Hnoap, lookup_insert_eq, Hd. simpl.
  rewrite lookup_insert_eq, lookup_insert_eq. simpl. rewrite Hd. simpl.
  rewrite (embeddedAPBinding_ext _ e) by done.
  destruct (embeddedAPBinding e (DescType dsc)) as [b|].
  - destruct (encoderFields (Fields dsc) ∅); [|done].
    destruct (omitEmpties (DescType dsc)); [|done].
    intros [= <- <-]. simpl. rewrite lookup_insert_eq. split; [done|].
    by eexists.
  - intros [= <- <-]. simpl. by rewrite lookup_insert_eq.
Qed.

(** ** What [Encode] writes, whatever the order *)

Lemma List_filter_Permutation {A : Type} (f : A -> bool) (l l' : list A) :
  l ≡ₚ l' -> List.filter f l ≡ₚ List.filter f l'.
Proof.
  induction 1 as [|x l l' _ IH|x y l|l l' l'' _ IH1 _ IH2]; simpl.
  - done.
  - destruct (f x); [by constructor|done].
  - destruct (f x), (f y); try done. apply perm_swap.
  - by etrans.
Qed.

Lemma separators_app (l1 l2 : list StreamOp) :
  separators (l1 ++ l2) = separators l1 + separators l2.
Proof. unfold separators. by rewrite List.filter_app, length_app. Qed.

Lemma separators_joinFrom_typed ptr first (ms : list (string * @Binding Value)) :
  separators (joinFrom first (map (typedMember ptr) ms))
  = length ms - (if first then 1 else 0).
Proof.
  revert first. induction ms as [|[k v] ms IH]; intros first; simpl.
  - by destruct first.
  - rewrite separators_app, IH. unfold writeMember.
    destruct first; unfold separators; simpl; lia.
Qed.

Lemma separators_joinFrom_ap first (ms : list (string * string)) :
  separators (joinFrom first (map apMember ms))
  = length ms - (if first then 1 else 0).
Proof.
  revert first. induction ms as [|[k v] ms IH]; intros first; simpl.
  - by destruct first.
  - rewrite separators_app, IH. unfold writeMember.
    destruct first; unfold separators; simpl; lia.
Qed.

(** X16: whatever order the two maps are visited in, [Encode] writes
    [WriteObjectStart] first and [WriteObjectEnd] last, writes the key of
    every typed entry that is not skipped once and the key of every entry
    of the additional-properties map once, and writes one [WriteMore] less
    than keys (none when there is no key). *)
Theorem Encode_keys enc ptr heap out :
  Encode enc ptr heap out ->
  head out = Some WriteObjectStart
  /\ last out = Some WriteObjectEnd
  /\ fieldKeys out
     ≡ₚ ((kept enc ptr (map_to_list (enc_Fields enc))).*1
         ++ (map_to_list (apOf enc ptr heap)).*1)%list
  /\ separators out = pred (length (fieldKeys out)).
Proof.
  intros (fieldOrder & apOrder & Hf & Ha & ->)%Encode_joinFrom.
  assert (fieldKeys
            (WriteObjectStart
               :: (joinFrom true (map (typedMember ptr) (kept enc ptr fieldOrder)
                                  ++ map apMember apOrder) ++ [WriteObjectEnd])%list)
          = ((kept enc ptr fieldOrder).*1 ++ apOrder.*1)%list) as Hkeys.
  { change (WriteObjectStart :: ?l) with ([WriteObjectStart] ++ l)%list.
    rewrite joinFrom_app, !fieldKeys_app.
    rewrite fieldKeys_joinFrom_typed, fieldKeys_joinFrom_ap. simpl.
    by rewrite app_nil_r. }
  split; [done|]. split.
  { change (WriteObjectStart :: ?l ++ [WriteObjectEnd])%list
      with ((WriteObjectStart :: l) ++ [WriteObjectEnd])%list.
    apply last_snoc. }
  rewrite Hkeys. split.
  - unfold mapRange in Hf, Ha. unfold kept.
    by rewrite (List_filter_Permutation _ _ _ Hf), Ha.
  - change (WriteObjectStart :: ?l) with ([WriteObjectStart] ++ l)%list.
    rewrite joinFrom_app, !separators_app.
    rewrite separators_joinFrom_typed, separators_joinFrom_ap.
    rewrite length_app, !length_fmap.
    change (separators [WriteObjectStart]) with 0.
    change (separators [WriteObjectEnd]) with 0.
    destruct (kept enc ptr fieldOrder), apOrder; simpl; lia.
Qed.

(** ** Encode, then decode *)








End Further.

(** ** Tags *)

Lemma splitComma_nonempty (s : string) : splitComma s <> [].
Proof.
  destruct s as [|c rest]; simpl; [done|].
  destruct (Ascii.eqb c (Ascii.ascii_of_nat 44)); [done|].
  by destruct (splitComma rest).
Qed.

Lemma splitComma_cons (name rest : string) :
  hasComma name = false ->
  splitComma (name ++ String comma rest) = name :: splitComma rest.
Proof.
  induction name as [|c name IH]; simpl.
  - done.
  - intros [Hc Hname]%orb_false_elim. unfold comma in Hc. rewrite Hc.
    by rewrite (IH Hname).
Qed.

Lemma splitComma_single (name : string) :
  hasComma name = false -> splitComma name = [name].
Proof.
  induction name as [|c name IH]; simpl; [done|].
  intros [Hc Hname]%orb_false_elim. unfold comma in Hc. rewrite Hc.
  by rewrite (IH Hname).
Qed.

(** What [strings.Split(s, ",")] is taken to be: the parts have no comma,
    there is at least one, and joining them with commas gives the string
    back. *)
Theorem splitComma_join (s : string) :
  joinComma (splitComma s) = s
  /\ Forall (fun part => hasComma part = false) (splitComma s)
  /\ splitComma s <> [].
Proof.
  split; [|split; [|apply splitComma_nonempty]].
  - induction s as [|c rest IH]; simpl; [done|].
    destruct (Ascii.eqb_spec c (Ascii.ascii_of_nat 44)) as [->|_].
    + pose proof (splitComma_nonempty rest) as Hne.
      destruct (splitComma rest) as [|h t]; [done|].
      change (joinComma (EmptyString :: h :: t))
        with (String comma (joinComma (h :: t))).
      by rewrite IH.
    + destruct (splitComma rest) as [|h t]; simpl in *; [by rewrite <- IH|].
      destruct t; simpl in *; by rewrite <- IH.
  - induction s as [|c rest IH]; simpl; [by repeat constructor|].
    destruct (Ascii.eqb c (Ascii.ascii_of_nat 44)) eqn:Hc; [by constructor|].
    destruct (splitComma rest) as [|h t].
    + repeat constructor. simpl. unfold comma. by rewrite Hc.
    + apply Forall_cons in IH as [Hh Ht]. constructor; [|done].
      simpl. unfold comma. by rewrite Hc, Hh.
Qed.

Lemma qualifiers_flag (qs : list string) (m : gmap string bool) q :
  flag (foldl (fun qualifiers x => <[x := true]> qualifiers) m qs) q = true
  <-> q ∈ qs \/ flag m q = true.
Proof.
  revert m. induction qs as [|x qs IH]; intros m; simpl.
  - split; [by right|]. intros [H|H]; [by apply not_elem_of_nil in H|done].
  - rewrite IH, elem_of_cons. unfold flag.
    destruct (decide (x = q)) as [->|Hne].
    + rewrite lookup_insert_eq. simpl. split; auto.
    + rewrite lookup_insert_ne by done. split; [intros [|]; auto|].
      intros [[|]|]; auto; congruence.
Qed.

(** X18: [jsonTag].  Without a json tag the name is the name of the field
    and there is no qualifier.  With a tag, the name is the part before
    the first comma, or the name of the field when that part is empty, and
    the qualifiers are exactly the parts after it: [omitempty] counts at
    any later position and only as a whole part. *)
Theorem jsonTag_parts (f : StructField) :
  (ftag f = None -> jsonTag f = (fname f, ∅))
  /\ (forall name,
        hasComma name = false -> ftag f = Some name ->
        jsonTag f = (if String.eqb name EmptyString then fname f else name, ∅))
  /\ (forall name rest,
        hasComma name = false -> ftag f = Some (name ++ String comma rest) ->
        (jsonTag f).1 = (if String.eqb name EmptyString then fname f else name)
        /\ forall q, flag (jsonTag f).2 q = true <-> q ∈ splitComma rest).
Proof.
  unfold jsonTag. split; [|split].
  - by intros ->.
  - intros name Hname ->. by rewrite (splitComma_single _ Hname).
  - intros name rest Hname ->. rewrite (splitComma_cons _ _ Hname). simpl.
    split; [done|]. intros q. rewrite qualifiers_flag. unfold flag.
    rewrite lookup_empty. simpl. split; [by intros [|]|auto].
Qed.

Lemma omitEmpties_fields name (fs : list StructField) :
  omitEmpties (TStruct name fs) = omitEmptiesFields fs ∅.
Proof. reflexivity. Qed.

Lemma omitEmptiesFields_entries (fs : list StructField) :
  Forall (fun f =>
            omitEmpties (ftype f)
            = if embeddable (ftype f)
              then Some (list_to_map (rev (emptiesEntries (ftype f))))
              else None) fs ->
  forall empties,
    omitEmptiesFields fs empties
    = if forallb (fun f => match f with
                           | MkField _ _ anon ty => if anon then embeddable ty else true
                           end) fs
      then Some (list_to_map
                   (rev (flat_map
                           (fun f => match f with
                                     | MkField n t anon ty =>
                                         if anon then emptiesEntries ty
                                         else [tagEntry (MkField n t anon ty)]
                                     end) fs))
                 ∪ empties)
      else None.
Proof.
  induction 1 as [|[n t anon ty] fs Hf _ IH]; intros empties; simpl.
  - by rewrite (left_id_L ∅ (∪)).
  - simpl in Hf. destruct anon.
    + rewrite Hf. destruct (embeddable ty); simpl; [|done].
      rewrite IH.
      destruct (forallb _ fs); [|done]. f_equal.
      rewrite rev_app_distr, list_to_map_app.
      by rewrite (assoc_L (∪)).
    + simpl. destruct (jsonTag (MkField n t false ty)) as [name q] eqn:Htag.
      rewrite IH. destruct (forallb _ fs); [|done]. f_equal.
      rewrite list_to_map_app. unfold tagEntry. rewrite Htag. simpl.
      rewrite insert_empty, <- (assoc_L (∪)).
      by rewrite <- insert_union_singleton_l.
Qed.

(** X19: [omitEmpties] panics exactly when the type is not a struct or
    some anonymous field, reached through anonymous struct fields, is not
    a struct (an embedded pointer, say).  Otherwise its table has, for
    every name, the omit-empty flag of the last entry written under it,
    the entries being those of the named fields in declaration order with
    the entries of an embedded struct in the place of its field: an
    embedded entry replaces an earlier one of the same name and is
    replaced by a later one. *)
Theorem omitEmpties_table (typ : GoType) :
  omitEmpties typ
  = if embeddable typ then Some (list_to_map (rev (emptiesEntries typ))) else None.
Proof.
  induction typ as [n|n fs IH] using GoType_fields_ind; [done|].
  rewrite omitEmpties_fields, (omitEmptiesFields_entries fs IH ∅). simpl.
  destruct (forallb _ fs); [|done]. by rewrite (right_id_L ∅ (∪)).
Qed.

(** * Examples

    The theorems at concrete inputs, and the inputs on which the code and
    its description part ways. *)

Lemma UpdateStructDescriptor_idempotent_witness :
  UpdateStructDescriptor exRegistry exStore1 0 = Some (exRegistry, exStore1).
Proof.
  apply (proj2 (UpdateStructDescriptor_idempotent
                  newAdditionalPropertiesExtension exStore 0
                  {| DescType := exT; Fields := [bName; bNote; bExtra] |}
                  eq_refl)
               exRegistry exStore1 eq_refl 0
               {| DescType := exT; Fields := [bName; bNote] |} eq_refl eq_refl).
Defined.

Lemma UpdateStructDescriptor_first_wildcard_witness :
  UpdateStructDescriptor newAdditionalPropertiesExtension exStoreW 0 =
    Some ({| Desc := {[ "ap.W" := 0 ]};
             APBinding := {[ "ap.W" := Some (exBinding 1 "*") ]} |},
          {[ 0 := {| DescType := exW;
                     Fields := [exBinding 0 "a"; exBinding 2 "b"; exBinding 3 "*"] |} ]}).
Proof.
  apply (proj1 (UpdateStructDescriptor_first_wildcard
                  newAdditionalPropertiesExtension exStoreW 0
                  {| DescType := exW;
                     Fields := [exBinding 0 "a"; exBinding 1 "*";
                                exBinding 2 "b"; exBinding 3 "*"] |}
                  eq_refl eq_refl)
               [exBinding 0 "a"] (exBinding 1 "*") [exBinding 2 "b"; exBinding 3 "*"]
               eq_refl).
  - repeat constructor.
  - reflexivity.
Defined.

(** The pipeline for [exT]: registration, then the two decorators. *)
Lemma exT_pipeline :
  UpdateStructDescriptor newAdditionalPropertiesExtension exStore 0
    = Some (exRegistry, exStore1)
  /\ DecorateDecoder asciiToLower exRegistry exStore1 exT
     = Some (exRegistry, Replaced exDecoder)
  /\ DecorateEncoder exRegistry exStore1 exT
     = Some (exRegistry, Replaced exEncoder).
Proof. by repeat split. Qed.



(** C9 on the code: the last occurrence of a key does not win when an
    empty key stands before it, since the loop of [Decode] takes the empty
    key for the end of the object.  In the object with the members
    [note: a], [x: 1], an empty key, [note: b], [x: 2], in this order, the
    last occurrences of [note] and of the unknown key [x] carry [b] and
    [2]; the field and the map end with [a] and [1]. *)
Theorem last_occurrence_after_empty_key_lost :
  let iter := [("note", "a"); ("x", "1"); (EmptyString, "0"); ("note", "b"); ("x", "2")] in
  let res := Decode asciiToLower exDecoder exZero ∅ iter in
  route asciiToLower exDecoder "note" = Some bNote
  /\ route asciiToLower exDecoder "x" = None
  /\ fieldVal res.1 (Field bNote) = Decoder bNote "a"
  /\ fieldVal res.1 (Field bNote) <> Decoder bNote "b"
  /\ UnsafeGetMap bExtra res.1 res.2 = {[ "x" := "1" ]}.
Proof. by repeat split. Qed.


(** C1 on the code: an unknown key is not written back when an empty key
    stands before it.  The object has the members [name: a], [x: 1], an
    empty key, [y: 2], in this order; the loop of [Decode] takes the empty
    key for the end of the object, [y] is never stored, and no output of
    [Encode] has it. *)
Theorem unknown_key_after_empty_key_dropped :
  let iter := [("name", "a"); ("x", "1"); (EmptyString, "0"); ("y", "2")] in
  let res := Decode asciiToLower exDecoder exZero ∅ iter in
  DecorateDecoder asciiToLower exRegistry exStore1 exT
    = Some (exRegistry, Replaced exDecoder)
  /\ DecorateEncoder exRegistry exStore1 exT = Some (exRegistry, Replaced exEncoder)
  /\ route asciiToLower exDecoder "y" = None
  /\ Encode exEncoder res.1 res.2
       [WriteObjectStart;
        WriteObjectField "name"; WriteRaw "a"; WriteMore;
        WriteObjectField "note"; WriteRaw EmptyString; WriteMore;
        WriteObjectField "x"; WriteVal "1";
        WriteObjectEnd]
  /\ forall out, Encode exEncoder res.1 res.2 out -> WriteObjectField "y" ∉ out.
Proof.
  intros iter res. repeat split.
  - exists [("name", bName); ("note", bNote)], [("x", "1")].
    split; [|split; [|reflexivity]].
    + apply (mapRange_list_to_map [("name", bName); ("note", bNote)]). compute_done.
    + change (mapRange (list_to_map [("x", "1")]) [("x", "1")]).
      apply mapRange_list_to_map. compute_done.
  - intros out Henc Hin.
    destruct (Encode_key_origin _ _ _ _ _ Henc Hin) as [(b & Hk & _)|[v Hv]].
    + vm_compute in Hk. discriminate Hk.
    + vm_compute in Hv. discriminate Hv.
Qed.

Lemma Encode_members_witness :
  exists dsc fieldOrder apOrder,
    Desc exRegistry !! typeName exT ≫= (exStore1 !!.) = Some dsc
    /\ enc_Fields exEncoder = list_to_map (rev (toNameEntries (Fields dsc)))
    /\ fieldOrder ≡ₚ map_to_list (enc_Fields exEncoder)
    /\ apOrder ≡ₚ map_to_list (apOf exEncoder exFilled ∅)
    /\ [WriteObjectStart;
        WriteObjectField "note"; WriteRaw "n"; WriteMore;
        WriteObjectField "name"; WriteRaw "a";
        WriteObjectEnd]
       = WriteObjectStart
           :: (joinFrom true
                 (map (typedMember exFilled)
                      (List.filter (fun m => negb (skipped exEncoder exFilled m)) fieldOrder)
                  ++ map apMember apOrder)
               ++ [WriteObjectEnd])%list.
Proof.
  apply (Encode_members exRegistry exStore1 exT exRegistry exEncoder exFilled ∅ _ eq_refl).
  exists [("note", bNote); ("name", bName)], [].
  split; [|split; [|reflexivity]].
  - apply (mapRange_list_to_map [("note", bNote); ("name", bName)]). compute_done.
  - change (mapRange (list_to_map []) ([] : list (string * string))).
    apply mapRange_list_to_map. compute_done.
Defined.

(** C2 fails on the code as stated: the descriptor of [exT] lists [name]
    before [note], and the decorated encoder can write [note] first: it
    ranges over a map. *)
Lemma Encode_not_in_descriptor_order :
  Fields <$> exStore1 !! 0 = Some [bName; bNote]
  /\ DecorateEncoder exRegistry exStore1 exT = Some (exRegistry, Replaced exEncoder)
  /\ Encode exEncoder exFilled ∅
       [WriteObjectStart;
        WriteObjectField "note"; WriteRaw "n"; WriteMore;
        WriteObjectField "name"; WriteRaw "a";
        WriteObjectEnd].
Proof.
  repeat split.
  exists [("note", bNote); ("name", bName)], [].
  split; [|split; [|reflexivity]].
  - apply (mapRange_list_to_map [("note", bNote); ("name", bName)]). compute_done.
  - change (mapRange (list_to_map []) ([] : list (string * string))).
    apply mapRange_list_to_map. compute_done.
Qed.



Lemma IsEmpty_false_witness :
  IsEmpty exEncoder exZero = false
  /\ follows (WriteObjectField "inner") (WriteRaw EmptyString)
       [WriteObjectStart; WriteObjectField "inner"; WriteRaw EmptyString;
        WriteObjectEnd].
Proof.
  split.
  - exact (proj1 (@IsEmpty_false string) exEncoder exZero).
  - apply (proj2 (@IsEmpty_false string) exOuter exEncoder (fun _ => exZero)
                 exZero ∅ _ "inner" bInner).
    + exists [("inner", bInner)], [].
      split; [|split; [|reflexivity]].
      * apply (mapRange_list_to_map [("inner", bInner)]). compute_done.
      * change (mapRange (list_to_map []) ([] : list (string * string))).
        apply mapRange_list_to_map. compute_done.
    + reflexivity.
    + reflexivity.
Defined.

(** C3 on the code: [exU] has the fields [Lower], decode name ["name"], and
    [Upper], decode name ["Name"].  The table of the decorated decoder is
    filled field by field with the decode name and its lowercase form, so
    the lowercase form of ["Name"] replaces the entry of [Lower]: the key
    ["name"], which is exactly the decode name of [Lower], is decoded into
    [Upper], and [Lower] keeps the value it had. *)
Theorem exact_name_shadowed_by_lowercase_form :
  let res := Decode asciiToLower exDecoderU exZero ∅ [("name", "1")] in
  UpdateStructDescriptor newAdditionalPropertiesExtension exStoreU 0
    = Some (exRegistryU, exStoreU1)
  /\ DecorateDecoder asciiToLower exRegistryU exStoreU1 exU
     = Some (exRegistryU, Replaced exDecoderU)
  /\ FromNames bLower = ["name"]
  /\ route asciiToLower exDecoderU "name" = Some bUpper
  /\ fieldVal res.1 (Field bLower) = fieldVal exZero (Field bLower)
  /\ fieldVal res.1 (Field bUpper) = Decoder bUpper "1".
Proof. by repeat split. Qed.

(** C6 on the code: [C] embeds [A] and then [B], and only [B] has an
    additional-properties binding.  When the encoder of [A] was decorated
    before, [APBinding] has a nil entry for [A]; the scan of
    [embeddedAPBinding] stops at that entry and the encoder of [C] is not
    decorated.  Without that earlier call the binding of [B] is adopted. *)
Theorem embedded_binding_hidden_by_nil_entry :
  (exists e, exDecorateC true = Some (e, Original)
             /\ APBinding e !! "ap.A" = Some None
             /\ APBinding e !! "ap.B" = Some (Some bExtraB)
             /\ APBinding e !! "ap.C" = Some None
             /\ embeddedAPBinding e exC = None)
  /\ (exists e enc, exDecorateC false = Some (e, Replaced enc)
                    /\ enc_APBinding enc = Some bExtraB
                    /\ APBinding e !! "ap.C" = Some (Some bExtraB)).
Proof.
  split.
  - eexists. split; [reflexivity|]. by repeat split.
  - eexists _, _. split; [reflexivity|]. by repeat split.
Qed.

(** ** The further properties at concrete inputs *)

Lemma asciiToLower_idempotent (s : string) :
  asciiToLower (asciiToLower s) = asciiToLower s.
Proof.
  induction s as [|c s IH]; [done|].
  simpl. rewrite IH. f_equal.
  by destruct c as [[] [] [] [] [] [] [] []].
Qed.

Lemma exT_names_differ (b' : @Binding string) fromName' names' :
  b' ∈ [bName; bNote] ->
  FromNames b' = fromName' :: names' ->
  asciiToLower fromName' = asciiToLower "note" ->
  b' = bNote.
Proof.
  intros [->|[->|Hin]%elem_of_cons]%elem_of_cons.
  - intros [= <- _] Hl. discriminate Hl.
  - done.
  - by apply not_elem_of_nil in Hin.
Qed.

Lemma route_by_lowercase_witness :
  route asciiToLower exDecoder "NoTe" = Some bNote.
Proof.
  apply (route_by_lowercase asciiToLower exRegistry exStore1 exT exRegistry exDecoder
           {| DescType := exT; Fields := [bName; bNote] |} bNote "note" []
           eq_refl eq_refl asciiToLower_idempotent).
  - apply elem_of_cons. right. apply elem_of_cons. by left.
  - reflexivity.
  - apply exT_names_differ.
  - reflexivity.
Defined.

Lemma route_unknown_iff_witness :
  route asciiToLower exDecoder "X" = None.
Proof.
  apply (proj2 (route_unknown_iff asciiToLower exRegistry exStore1 exT exRegistry
                  exDecoder {| DescType := exT; Fields := [bName; bNote] |} "X"
                  eq_refl eq_refl)).
  intros b fromName names [->|[->|Hin]%elem_of_cons]%elem_of_cons.
  - intros [= <- _]. by repeat split.
  - intros [= <- _]. by repeat split.
  - by apply not_elem_of_nil in Hin.
Defined.

Lemma decorators_panic_iff_witness :
  DecorateDecoder asciiToLower exRegistry exStoreHidden exT = None
  /\ DecorateEncoder exRegistry exStoreHidden exT = None.
Proof.
  destruct (decorators_panic_iff asciiToLower exRegistry exStoreHidden exT bExtra
              {| DescType := exT; Fields := [bName; bHidden] |}
              eq_refl eq_refl eq_refl) as [Hdec Henc].
  split.
  - apply Hdec. apply Exists_cons. right. apply Exists_cons. by left.
  - apply Henc. left. apply Exists_cons. right. apply Exists_cons. by left.
Defined.

Lemma decorators_agree_witness :
  exRegistry = exRegistry
  /\ ((Replaced exDecoder = Original /\ Replaced exEncoder = Original)
      \/ exists d enc binding,
           Replaced exDecoder = Replaced d /\ Replaced exEncoder = Replaced enc
           /\ dec_APBinding d = Some binding /\ enc_APBinding enc = Some binding).
Proof.
  exact (decorators_agree asciiToLower exRegistry exStore1 exT exRegistry exRegistry
           (Replaced exDecoder) (Replaced exEncoder) eq_refl eq_refl).
Defined.

Lemma decorators_idempotent_witness :
  DecorateEncoder exRegistryBC exStoreABC exC = Some (exRegistryBC, Replaced exEncoderC).
Proof.
  apply (proj2 (decorators_idempotent asciiToLower
                  {| Desc := {[ "ap.B" := 2; "ap.C" := 3 ]};
                     APBinding := APBinding exRegistryB |} exStoreABC exC)
               exRegistryBC (Replaced exEncoderC)).
  reflexivity.
Defined.

Lemma register_wildcard_then_decorate_witness :
  exRegistry = exRegistry
  /\ exists d, Replaced exDecoder = Replaced d /\ dec_APBinding d = Some bExtra
               /\ decoderFields asciiToLower ([bName; bNote] ++ []) ∅
                  = Some (dec_Fields d).
Proof.
  apply (proj1 (register_wildcard_then_decorate asciiToLower
                  newAdditionalPropertiesExtension exStore 0
                  {| DescType := exT; Fields := [bName; bNote; bExtra] |}
                  [bName; bNote] [] bExtra exRegistry exStore1
                  eq_refl eq_refl eq_refl eq_refl
                  ltac:(by repeat constructor) eq_refl eq_refl)
               exRegistry (Replaced exDecoder) eq_refl).
Defined.

Lemma register_plain_then_decorate_witness :
  APBinding exRegistryBC !! "ap.C" = Some (embeddedAPBinding exRegistryB exC)
  /\ match embeddedAPBinding exRegistryB exC with
     | Some b => exists enc, Replaced exEncoderC = Replaced enc
                             /\ enc_APBinding enc = Some b
     | None => Replaced exEncoderC = Original
     end.
Proof.
  apply (register_plain_then_decorate exRegistryB exStoreABC 3
           {| DescType := exC; Fields := [] |}
           {| Desc := {[ "ap.B" := 2; "ap.C" := 3 ]};
              APBinding := APBinding exRegistryB |} exStoreABC
           exRegistryBC (Replaced exEncoderC));
    try reflexivity.
  constructor.
Defined.

Lemma UpdateStructDescriptor_frame_witness :
  exists dsc1 : @StructDescriptor string,
    ({[ 0 := {| DescType := exW;
                Fields := [exBinding 0 "a"; exBinding 2 "b"; exBinding 3 "*"] |} ]}
       : gmap nat StructDescriptor) !! 0 = Some dsc1
    /\ DescType dsc1 = exW
    /\ List.filter (fun x => negb (isWildcard x)) (Fields dsc1)
       = [exBinding 0 "a"; exBinding 2 "b"]
    /\ 4 <= S (length (Fields dsc1))
    /\ length (Fields dsc1) <= 4.
Proof.
  exact (proj1 (UpdateStructDescriptor_frame
                  newAdditionalPropertiesExtension exStoreW 0
                  {| DescType := exW;
                     Fields := [exBinding 0 "a"; exBinding 1 "*";
                                exBinding 2 "b"; exBinding 3 "*"] |}
                  {| Desc := {[ "ap.W" := 0 ]};
                     APBinding := {[ "ap.W" := Some (exBinding 1 "*") ]} |}
                  {[ 0 := {| DescType := exW;
                             Fields := [exBinding 0 "a"; exBinding 2 "b";
                                        exBinding 3 "*"] |} ]}
                  eq_refl eq_refl)).
Defined.

Lemma reachable_bindings_are_wildcards_witness :
  exists b, dec_APBinding exDecoder = Some b /\ isWildcard b = true.
Proof.
  assert (reachable asciiToLower exRegistry) as Hreach.
  { apply (reachable_update asciiToLower newAdditionalPropertiesExtension exStore 0
             exRegistry exStore1); [constructor|reflexivity]. }
  destruct (reachable_bindings_are_wildcards asciiToLower exRegistry Hreach)
    as (_ & _ & Hdec & _).
  apply (Hdec exStore1 exT exRegistry exDecoder). reflexivity.
Defined.

Lemma exFull_Encode :
  Encode exEncoder exFull exFullHeap
    [WriteObjectStart;
     WriteObjectField "note"; WriteRaw "n"; WriteMore;
     WriteObjectField "name"; WriteRaw "a"; WriteMore;
     WriteObjectField "x"; WriteVal "1";
     WriteObjectEnd].
Proof.
  exists [("note", bNote); ("name", bName)], [("x", "1")].
  split; [|split; [|reflexivity]].
  - apply (mapRange_list_to_map [("note", bNote); ("name", bName)]). compute_done.
  - change (mapRange (list_to_map [("x", "1")]) [("x", "1")]).
    apply mapRange_list_to_map. compute_done.
Qed.

Lemma Encode_keys_witness :
  let out := [WriteObjectStart;
              WriteObjectField "note"; WriteRaw "n"; WriteMore;
              WriteObjectField "name"; WriteRaw "a"; WriteMore;
              WriteObjectField "x"; WriteVal "1";
              WriteObjectEnd] in
  head out = Some WriteObjectStart
  /\ last out = Some WriteObjectEnd
  /\ fieldKeys out
     ≡ₚ ((kept exEncoder exFull (map_to_list (enc_Fields exEncoder))).*1
         ++ (map_to_list (apOf exEncoder exFull exFullHeap)).*1)%list
  /\ separators out = pred (length (fieldKeys out)).
Proof.
  exact (Encode_keys exEncoder exFull exFullHeap _ exFull_Encode).
Defined.






Lemma embeddedAPBinding_first_entry_witness :
  embeddedAPBinding
    {| Desc := ∅;
       APBinding := {[ "ap.A" := None; "ap.B" := Some bExtraB ]} |} exC = None.
Proof.
  apply (proj1 (embeddedAPBinding_first_entry
                  {| Desc := ∅;
                     APBinding := {[ "ap.A" := None; "ap.B" := Some bExtraB ]} |}
                  "ap.C" [MkField "A" None true exA; MkField "B" None true exB])
               [] (MkField "A" None true exA) [MkField "B" None true exB] None);
    try reflexivity.
  constructor.
Defined.

Lemma jsonTag_parts_witness :
  (jsonTag (MkField "Name" (Some "name,omitempty") false tString)).1 = "name"
  /\ forall q,
       flag (jsonTag (MkField "Name" (Some "name,omitempty") false tString)).2 q = true
       <-> q ∈ splitComma "omitempty".
Proof.
  apply (proj2 (proj2 (jsonTag_parts
                         (MkField "Name" (Some "name,omitempty") false tString)))
               "name" "omitempty"); reflexivity.
Defined.
